(** * Task dispatch core of amltk: [src/amltk/scheduling/task.py]

    A shallow embedding of the [Task] class (construction, [copy],
    [__call__]/[submit], [_process_future], [n_running]) together with the
    lifecycle properties of the task/event dispatch core.

    Python objects are references; the embedding keeps the stores the
    [Task] code reads and writes explicit:
    - plugin objects live in a heap keyed by object identity,
    - futures live in a heap keyed by object identity (the "handle"),
    - every call the [Task] makes on a collaborator, and every mutation of
      its own queue, is appended in program order to a trace.

    The classes the [Task] talks to ([Emitter]/[Subscriber], [Future],
    [Scheduler], [TaskPlugin], [UniqueRef], [uuid4], [funcname]) live in
    other modules; their behaviour is taken from the interface contracts of
    the specification, as parameters collected in the class [Collaborators]
    and as the definitions whose comment starts "Modelled from the spec:". *)

From stdpp Require Import gmap strings list fin_maps.

Set Default Proof Using "Type".

(** ** Identities and events *)

(** [Event("task-submitted")] and friends: an event is identified by its name. *)
Record Event := mkEvent { event_name : string }.

Global Instance Event_eq_dec : EqDecision Event.
Proof. solve_decision. Defined.

Definition SUBMITTED : Event := mkEvent "task-submitted".
Definition DONE : Event := mkEvent "task-done".
Definition CANCELLED : Event := mkEvent "task-cancelled".
Definition RETURNED : Event := mkEvent "task-returned".
Definition EXCEPTION : Event := mkEvent "task-exception".

(** [UniqueRef(f"{self.name}-{self.uuid}")]: the two components of the
    reference string are kept apart. *)
Record UniqueRef := mkUniqueRef { ref_name : string; ref_uuid : nat }.

Global Instance UniqueRef_eq_dec : EqDecision UniqueRef.
Proof. solve_decision. Defined.

(** [self.subscriber(event)]: a subscriber binds one event under the
    namespace (event manager) of the emitter that created it. *)
Record Subscriber := mkSubscriber { sub_manager : UniqueRef; sub_event : Event }.

(** Modelled from the spec: the states of the Future Handle of sections 3
    and 4.2 (the [Future] class is missing): pending, completed-with-result,
    completed-with-error, cancelled. *)
Inductive FutureState (R E : Type) : Type :=
  | FPending
  | FResult (r : R)
  | FException (e : E)
  | FCancelled.
Arguments FPending {R E}.
Arguments FResult {R E} r.
Arguments FException {R E} e.
Arguments FCancelled {R E}.

(** ** The collaborators of a Task

    [Task] is [Generic[P, R]]: the callable, its arguments and its result are
    type parameters. The hooks of the plugin interface and the submit
    operation of the execution backend are taken as parameters too. *)
Class Collaborators := {
  Fn : Type;            (* the callable, [Callable[P, R]] *)
  Args : Type;          (* [*args] *)
  Kwargs : Type;        (* [**kwargs] *)
  Ret : Type;           (* [R] *)
  Exn : Type;           (* [BaseException] *)
  PluginState : Type;   (* the attributes of a plugin object *)
  BackendState : Type;  (* the state of the execution backends *)
  (* amltk.functional.funcname *)
  funcname : Fn → string;
  (* TaskPlugin.pre_submit(fn, *args, **kwargs) -> (fn, args, kwargs) | None;
     a plugin may update its own attributes while it runs. *)
  plugin_pre_submit :
    PluginState → Fn → Args → Kwargs → PluginState * option (Fn * Args * Kwargs);
  (* TaskPlugin.copy(): the attributes of the clone *)
  plugin_copy : PluginState → PluginState;
  (* TaskPlugin.attach_task(task) *)
  plugin_attach_task : PluginState → UniqueRef → PluginState;
  (* Scheduler.submit(fn, *args, **kwargs) -> Future | None, for the
     scheduler with the given identity: a rejection, or the state in which
     the new future is handed out (terminal already for a sequential
     backend, pending for a pooled one). *)
  backend_submit :
    nat → BackendState → Fn → Args → Kwargs →
    BackendState * option (FutureState Ret Exn)
}.

Section Task.
Context `{Collaborators}.

(** A future object: its state and the done-callbacks registered on it.
    The only callbacks the Task registers are bound methods
    [task._process_future], identified by the task they are bound to. *)
Record FutureObj := mkFuture {
  fstate : FutureState Ret Exn;
  done_callbacks : list UniqueRef
}.

(** What travels with an emitted event after the future itself. *)
Inductive Payload :=
  | PArgs (args : Args) (kwargs : Kwargs)   (* submitted(future, *args, **kwargs) *)
  | PNone                                   (* done(future), cancelled(future) *)
  | PException (e : Exn)                    (* exception(future, error) *)
  | PResult (r : Ret).                      (* returned(future, result) *)

(** The operations of a Task, in program order. Calls on collaborators
    carry what the collaborator answered; an emission carries the queue of
    the emitting task at that moment, which is what a callback reading
    [task.queue] during the emission finds. *)
Inductive Action :=
  | PreSubmit (plugin : nat) (fn : Fn) (args : Args) (kwargs : Kwargs)
              (items : option (Fn * Args * Kwargs))
  | SchedulerSubmit (scheduler : nat) (fn : Fn) (args : Args) (kwargs : Kwargs)
                    (future : option nat)
  | QueueAppend (future : nat)
  | Emit (manager : UniqueRef) (event : Event) (future : nat) (payload : Payload)
         (observed_queue : list nat)
  | AddDoneCallback (future : nat)
  | QueueRemove (future : nat).

(** The attributes of a Task. [_emitted_events], a set that [__init__]
    creates empty and that no method of the class reads or writes, is left
    out. *)
Record Task := mkTask {
  name : string;
  uuid : nat;
  unique_ref : UniqueRef;
  plugins : list nat;          (* references to plugin objects *)
  function : Fn;
  scheduler : nat;             (* reference to the scheduler *)
  init_plugins : bool;
  queue : list nat;            (* references to futures *)
  on_submitted : Subscriber;
  on_done : Subscriber;
  on_returned : Subscriber;
  on_exception : Subscriber;
  on_cancelled : Subscriber
}.

Record Env := mkEnv {
  plugin_heap : gmap nat PluginState;
  futures : gmap nat FutureObj;
  backend : BackendState;
  uuid_supply : nat;           (* uuid4(): the next process-unique id *)
  trace : list Action
}.

(** Exceptions. [DanglingReference] is not a Python exception: it marks a
    lookup of an object identity that the heap does not hold, which no
    Python program can perform. *)
Inductive PyError :=
  | ValueError (future : nat) (queue : list nat)
  | InvalidStateError
  | CancelledError
  | UserException (e : Exn)
  | DanglingReference.

Inductive Res (A : Type) :=
  | Ok (a : A)
  | Raise (e : PyError).
Arguments Ok {A} a.
Arguments Raise {A} e.

(** ** State and exceptions

    A computation transforms the state and either returns or raises; what
    it did to the state before raising stays done. *)
Definition SE (St A : Type) : Type := St → Res A * St.

Definition ret {St A} (a : A) : SE St A := λ s, (Ok a, s).
Definition raise {St A} (e : PyError) : SE St A := λ s, (Raise e, s).
Definition bind {St A B} (c : SE St A) (k : A → SE St B) : SE St B :=
  λ s, match c s with
       | (Ok a, s') => k a s'
       | (Raise e, s') => (Raise e, s')
       end.

Notation "'let!' x ':=' c 'in' k" := (bind c (λ x, k))
  (at level 10, x name, c at level 100, k at level 200, only parsing).

(** Methods of a Task run on the task itself and its environment;
    constructors and plugin methods on the environment alone. *)
Definition M (A : Type) : Type := SE (Task * Env) A.
Definition E (A : Type) : Type := SE Env A.

Definition lift {A} (c : E A) : M A :=
  λ '(t, e), let '(r, e') := c e in (r, (t, e')).

Definition get_self : M Task := λ '(t, e), (Ok t, (t, e)).

Definition with_queue (q : list nat) (t : Task) : Task :=
  mkTask (name t) (uuid t) (unique_ref t) (plugins t) (function t)
         (scheduler t) (init_plugins t) q
         (on_submitted t) (on_done t) (on_returned t) (on_exception t)
         (on_cancelled t).

Definition set_queue (q : list nat) : M unit :=
  λ '(t, e), (Ok tt, (with_queue q t, e)).

Definition set_plugins (ps : list nat) (t : Task) : Task :=
  mkTask (name t) (uuid t) (unique_ref t) ps (function t)
         (scheduler t) (init_plugins t) (queue t)
         (on_submitted t) (on_done t) (on_returned t) (on_exception t)
         (on_cancelled t).

Definition set_plugin_heap (ph : gmap nat PluginState) (e : Env) : Env :=
  mkEnv ph (futures e) (backend e) (uuid_supply e) (trace e).
Definition set_futures (fs : gmap nat FutureObj) (e : Env) : Env :=
  mkEnv (plugin_heap e) fs (backend e) (uuid_supply e) (trace e).
Definition set_backend (b : BackendState) (e : Env) : Env :=
  mkEnv (plugin_heap e) (futures e) b (uuid_supply e) (trace e).
Definition set_uuid_supply (n : nat) (e : Env) : Env :=
  mkEnv (plugin_heap e) (futures e) (backend e) n (trace e).
Definition record (a : Action) (e : Env) : Env :=
  mkEnv (plugin_heap e) (futures e) (backend e) (uuid_supply e) (trace e ++ [a]).

Definition log (a : Action) : E unit := λ e, (Ok tt, record a e).

(** ** The Future Handle *)

(** Modelled from the spec: [is_done()] of section 4.2, [Future.done()]
    (the [Future] class is missing). *)
Definition future_done (st : FutureState Ret Exn) : bool :=
  match st with FPending => false | _ => true end.

(** Modelled from the spec: [is_cancelled()] of section 4.2,
    [Future.cancelled()] (the [Future] class is missing). *)
Definition future_cancelled (st : FutureState Ret Exn) : bool :=
  match st with FCancelled => true | _ => false end.

(** Modelled from the spec: [error()] of section 4.2, [Future.exception()]
    (the [Future] class is missing). It is valid only after the handle is
    terminal; before, it is a misuse error. On a cancelled handle it
    raises. *)
Definition future_exception (st : FutureState Ret Exn) : Res (option Exn) :=
  match st with
  | FPending => Raise InvalidStateError
  | FResult _ => Ok None
  | FException e => Ok (Some e)
  | FCancelled => Raise CancelledError
  end.

(** Modelled from the spec: [result()] of section 4.2, [Future.result()]
    (the [Future] class is missing). It is valid only after the handle is
    terminal; on a handle completed with an error it raises that error. *)
Definition future_result (st : FutureState Ret Exn) : Res Ret :=
  match st with
  | FPending => Raise InvalidStateError
  | FResult r => Ok r
  | FException e => Raise (UserException e)
  | FCancelled => Raise CancelledError
  end.

Definition of_res {St A} (r : Res A) : SE St A := λ s, (r, s).

(** Dereference a future. *)
Definition get_future (h : nat) : E FutureObj :=
  λ e, match futures e !! h with
       | Some fo => (Ok fo, e)
       | None => (Raise DanglingReference, e)
       end.

(** ** The Emitter *)

(** Modelled from the spec: [emit] of section 4.1, [Subscriber.emit] (the
    [Emitter] and [Subscriber] classes are missing). An emission is
    addressed to the namespace and event of the subscriber; it is recorded
    together with the queue the emitting task has at that moment.
    Callbacks are opaque: they observe, and do not change the task or its
    environment. *)
Definition emit (sub : Subscriber) (future : nat) (payload : Payload) : M unit :=
  λ '(t, e),
    (Ok tt, (t, record (Emit (sub_manager sub) (sub_event sub) future payload (queue t)) e)).

(** ** The queue *)

(** [list.remove(x)]: drops the first occurrence of [x]; [None] stands for
    the [ValueError] raised when there is none. *)
Fixpoint list_remove (x : nat) (l : list nat) : option (list nat) :=
  match l with
  | [] => None
  | y :: l' =>
      if decide (y = x) then Some l'
      else match list_remove x l' with
           | Some r => Some (y :: r)
           | None => None
           end
  end.

(** [self.queue.append(future)] *)
Definition queue_append (future : nat) : M unit :=
  let! t := get_self in
  let! _ := set_queue (queue t ++ [future]) in
  lift (log (QueueAppend future)).

(** [try: self.queue.remove(future) except ValueError as e: raise ValueError(...) from e] *)
Definition queue_remove (future : nat) : M unit :=
  let! t := get_self in
  match list_remove future (queue t) with
  | Some q => let! _ := set_queue q in lift (log (QueueRemove future))
  | None => raise (ValueError future (queue t))
  end.

(** ** [Task._process_future] *)
Definition _process_future (future : nat) : M unit :=
  let! _ := queue_remove future in
  let! t := get_self in
  let! fo := lift (get_future future) in
  if future_cancelled (fstate fo) then
    emit (on_cancelled t) future PNone
  else
    let! _ := emit (on_done t) future PNone in
    let! exception := of_res (future_exception (fstate fo)) in
    match exception with
    | Some err => emit (on_exception t) future (PException err)
    | None =>
        let! result := of_res (future_result (fstate fo)) in
        emit (on_returned t) future (PResult result)
    end.

(** ** Plugins and the backend *)

(** Modelled from the spec: [pre_submit] of section 6, the call
    [plugin.pre_submit(fn, *args, **kwargs)] on the plugin object [plugin]
    (the [TaskPlugin] class is missing); what the hook computes is the
    parameter [plugin_pre_submit]. *)
Definition pre_submit (plugin : nat) (fn : Fn) (args : Args) (kwargs : Kwargs)
  : E (option (Fn * Args * Kwargs)) :=
  λ e, match plugin_heap e !! plugin with
       | None => (Raise DanglingReference, e)
       | Some st =>
           let '(st', items) := plugin_pre_submit st fn args kwargs in
           (Ok items,
            record (PreSubmit plugin fn args kwargs items)
                   (set_plugin_heap (<[plugin := st']> (plugin_heap e)) e))
       end.

(** Modelled from the spec: [attach(task)] of section 6, the call
    [plugin.attach_task(task)] (the [TaskPlugin] class is missing); what it
    does to the plugin is the parameter [plugin_attach_task]. *)
Definition attach_task (plugin : nat) (t : Task) : E unit :=
  λ e, match plugin_heap e !! plugin with
       | None => (Raise DanglingReference, e)
       | Some st =>
           (Ok tt,
            set_plugin_heap (<[plugin := plugin_attach_task st (unique_ref t)]> (plugin_heap e)) e)
       end.

(** Modelled from the spec: [copy() -> Plugin] of section 6, "independent
    configuration clone" (the [TaskPlugin] class is missing): [p.copy()] is
    a new plugin object holding the attributes [plugin_copy] gives the
    clone. *)
Definition copy_plugin (plugin : nat) : E nat :=
  λ e, match plugin_heap e !! plugin with
       | None => (Raise DanglingReference, e)
       | Some st =>
           let p' := fresh (dom (plugin_heap e)) in
           (Ok p', set_plugin_heap (<[p' := plugin_copy st]> (plugin_heap e)) e)
       end.

(** Modelled from the spec: [submit(function, *args, **kwargs) -> Handle |
    RejectionSignal] of section 6, [Scheduler.submit] (the [Scheduler] class
    is missing). A rejection returns [None]; an acceptance creates a new
    future object and returns it. *)
Definition scheduler_submit (s : nat) (fn : Fn) (args : Args) (kwargs : Kwargs)
  : E (option nat) :=
  λ e, let '(b, answer) := backend_submit s (backend e) fn args kwargs in
       let e1 := set_backend b e in
       match answer with
       | None => (Ok None, record (SchedulerSubmit s fn args kwargs None) e1)
       | Some st =>
           let h := fresh (dom (futures e1)) in
           (Ok (Some h),
            record (SchedulerSubmit s fn args kwargs (Some h))
                   (set_futures (<[h := mkFuture st []]> (futures e1)) e1))
       end.

(** Modelled from the spec: [on_completion] of section 4.2, here
    [future.add_done_callback(self._process_future)]. On a handle that is
    already terminal the hook fires immediately; otherwise it is
    registered on the handle. *)
Definition add_done_callback (future : nat) : M unit :=
  let! t := get_self in
  let! _ := lift (log (AddDoneCallback future)) in
  let! fo := lift (get_future future) in
  if future_done (fstate fo) then
    _process_future future
  else
    lift (λ e, (Ok tt,
                set_futures (<[future := mkFuture (fstate fo)
                                           (done_callbacks fo ++ [unique_ref t])]>
                               (futures e)) e)).

(** ** [Task.__call__] *)

(** The loop [for plugin in self.plugins: ...] over the remaining plugins,
    with the current [fn, args, kwargs]; [None] is the early [return None]. *)
Fixpoint for_plugins (ps : list nat) (fn : Fn) (args : Args) (kwargs : Kwargs)
  : E (option (Fn * Args * Kwargs)) :=
  match ps with
  | [] => ret (Some (fn, args, kwargs))
  | plugin :: ps' =>
      let! items := pre_submit plugin fn args kwargs in
      match items with
      | None => ret None
      | Some (fn', args', kwargs') => for_plugins ps' fn' args' kwargs'
      end
  end.

Definition __call__ (args : Args) (kwargs : Kwargs) : M (option nat) :=
  let! t := get_self in
  let fn := function t in
  let! items := lift (for_plugins (plugins t) fn args kwargs) in
  match items with
  | None => ret None
  | Some (fn, args, kwargs) =>
      let! future := lift (scheduler_submit (scheduler t) fn args kwargs) in
      match future with
      | None => ret None
      | Some future =>
          let! _ := queue_append future in
          let! _ := emit (on_submitted t) future (PArgs args kwargs) in
          let! _ := add_done_callback future in
          ret (Some future)
      end
  end.

(** [Task.submit] *)
Definition submit (args : Args) (kwargs : Kwargs) : M (option nat) :=
  __call__ args kwargs.

(** ** Queries *)

(** [Task.futures] *)
Definition futures_ (t : Task) : list nat := queue t.

(** [not f.done()] for the future [h]. *)
Definition is_running (e : Env) (h : nat) : bool :=
  match futures e !! h with
  | Some fo => negb (future_done (fstate fo))
  | None => false
  end.

(** The futures of the queue for which [f.done()] is false. *)
Definition not_done (e : Env) (q : list nat) : list nat :=
  filter (λ h, is_running e h) q.

(** [Task.n_running]: [sum(1 for f in self.queue if not f.done())] *)
Definition n_running (t : Task) (e : Env) : nat := length (not_done e (queue t)).


(** ** Construction *)

(** [for plugin in self.plugins: plugin.attach_task(self)] *)
Fixpoint attach_all (ps : list nat) (t : Task) : E unit :=
  match ps with
  | [] => ret tt
  | plugin :: ps' => let! _ := attach_task plugin t in attach_all ps' t
  end.

(** Modelled from the spec: the "process-unique id" of section 3, here
    [str(uuid4())], drawn from a supply. *)
Definition uuid4 : E nat :=
  λ e, (Ok (uuid_supply e), set_uuid_supply (Datatypes.S (uuid_supply e)) e).

(** [Task.__init__] *)
Definition __init__ (function : Fn) (scheduler : nat) (name : option string)
    (plugins : list nat) (init_plugins : bool) : E Task :=
  let name := match name with Some n => n | None => funcname function end in
  let! uuid := uuid4 in
  let unique_ref := mkUniqueRef name uuid in
  let self :=
    mkTask name uuid unique_ref plugins function scheduler init_plugins []
           (mkSubscriber unique_ref SUBMITTED)
           (mkSubscriber unique_ref DONE)
           (mkSubscriber unique_ref RETURNED)
           (mkSubscriber unique_ref EXCEPTION)
           (mkSubscriber unique_ref CANCELLED) in
  if init_plugins then
    let! _ := attach_all plugins self in ret self
  else ret self.

(** [tuple(p.copy() for p in self.plugins)] *)
Fixpoint copy_plugins (ps : list nat) : E (list nat) :=
  match ps with
  | [] => ret []
  | plugin :: ps' =>
      let! p' := copy_plugin plugin in
      let! rest := copy_plugins ps' in
      ret (p' :: rest)
  end.

(** [Task.copy] *)
Definition copy (self : Task) (init_plugins : bool) : E Task :=
  let! ps := copy_plugins (plugins self) in
  __init__ (function self) (scheduler self) (Some (name self)) ps init_plugins.

(** [Task.attach_plugin] *)
Definition attach_plugin (plugin : nat) : M unit :=
  λ '(t, e),
    let t' := set_plugins (plugins t ++ [plugin]) t in
    lift (attach_task plugin t') (t', e).

(** ** The backend completing a future *)

(** Modelled from the spec: the invocation of the hooks registered on a
    handle, section 4.2 (the [Future] class is missing). A hook registered
    by this task is its bound [_process_future]; hooks of other owners are
    none of this task's business. *)
Fixpoint invoke_callbacks (cbs : list UniqueRef) (future : nat) : M unit :=
  match cbs with
  | [] => ret tt
  | cb :: cbs' =>
      let! t := get_self in
      let! _ := (if decide (cb = unique_ref t) then _process_future future else ret tt) in
      invoke_callbacks cbs' future
  end.

(** Modelled from the spec: the transition of a Future Handle from pending
    to one terminal state, sections 3 and 4.2, performed by the backend
    (the [Future] and [Scheduler] classes are missing). The transition is
    irreversible, and the hooks registered on the handle are invoked once,
    after it. *)
Definition complete (future : nat) (outcome : FutureState Ret Exn) : M unit :=
  let! fo := lift (get_future future) in
  if future_done (fstate fo) || negb (future_done outcome) then
    raise InvalidStateError
  else
    let! _ := lift (λ e, (Ok tt,
                          set_futures (<[future := mkFuture outcome []]> (futures e)) e)) in
    invoke_callbacks (done_callbacks fo) future.

(** What happens to a task from outside: a caller submits, or the backend
    drives one of the futures to a terminal state. *)
Inductive Stimulus :=
  | Submit (args : Args) (kwargs : Kwargs)
  | Complete (future : nat) (outcome : FutureState Ret Exn).

Definition step (s : Stimulus) (st : Task * Env) : Task * Env :=
  match s with
  | Submit args kwargs => snd (submit args kwargs st)
  | Complete future outcome => snd (complete future outcome st)
  end.

(** A history: the stimuli are applied from left to right. *)
Definition run (ss : list Stimulus) (st : Task * Env) : Task * Env :=
  foldl (λ st s, step s st) st ss.

(** ** Reading a trace *)

(** The actions appended to the trace between two environments. *)
Definition new_actions (e e' : Env) : list Action :=
  drop (length (trace e)) (trace e').

(** The events emitted for a future, in order. *)
Definition events_of (h : nat) (tr : list Action) : list Event :=
  omap (λ a, match a with
             | Emit _ ev h' _ _ => if decide (h' = h) then Some ev else None
             | _ => None
             end) tr.

(** The hook calls of a trace: plugin, what it was given, what it returned. *)
Definition hook_calls (tr : list Action)
  : list (nat * (Fn * Args * Kwargs) * option (Fn * Args * Kwargs)) :=
  omap (λ a, match a with
             | PreSubmit p fn args kwargs items => Some (p, (fn, args, kwargs), items)
             | _ => None
             end) tr.

(** The backend calls of a trace: scheduler and what it was given. *)
Definition dispatches (tr : list Action) : list (nat * (Fn * Args * Kwargs)) :=
  omap (λ a, match a with
             | SchedulerSubmit s fn args kwargs _ => Some (s, (fn, args, kwargs))
             | _ => None
             end) tr.

(** The plugins whose hook a trace calls, in order. *)
Definition consulted (tr : list Action) : list nat :=
  (λ c, c.1.1) <$> hook_calls tr.

Definition is_PreSubmit (a : Action) : Prop :=
  match a with PreSubmit _ _ _ _ _ => True | _ => False end.

Definition is_Emit (a : Action) : Prop :=
  match a with Emit _ _ _ _ _ => True | _ => False end.

(** The plugin loop, read off a trace: starting from [x], the hooks of the
    plugins [ps] are called in this order, each on what the one before it
    returned, until the list is exhausted, a hook vetoes, or a plugin
    reference dangles. *)
Inductive threaded :
  Fn * Args * Kwargs → list nat → list Action → Res (option (Fn * Args * Kwargs)) → Prop :=
  | threaded_end x :
      threaded x [] [] (Ok (Some x))
  | threaded_veto p ps fn args kwargs :
      threaded (fn, args, kwargs) (p :: ps) [PreSubmit p fn args kwargs None] (Ok None)
  | threaded_next p ps fn args kwargs y acts r :
      threaded y ps acts r →
      threaded (fn, args, kwargs) (p :: ps)
               (PreSubmit p fn args kwargs (Some y) :: acts) r
  | threaded_dangling x p ps :
      threaded x (p :: ps) [] (Raise DanglingReference).

(** What [_process_future] appends to the trace for a future in state [st]
    once it has taken it out of the queue, leaving the queue [q]; and how it
    ends. *)
Definition finalizer_actions (t : Task) (h : nat) (st : FutureState Ret Exn)
    (q : list nat) : list Action :=
  QueueRemove h ::
  match st with
  | FCancelled =>
      [Emit (sub_manager (on_cancelled t)) (sub_event (on_cancelled t)) h PNone q]
  | FResult r =>
      [Emit (sub_manager (on_done t)) (sub_event (on_done t)) h PNone q;
       Emit (sub_manager (on_returned t)) (sub_event (on_returned t)) h (PResult r) q]
  | FException err =>
      [Emit (sub_manager (on_done t)) (sub_event (on_done t)) h PNone q;
       Emit (sub_manager (on_exception t)) (sub_event (on_exception t)) h (PException err) q]
  | FPending =>
      [Emit (sub_manager (on_done t)) (sub_event (on_done t)) h PNone q]
  end.

(** What [__call__] appends to the trace from the moment the backend hands
    out the future [h] up to the registration of the completion hook. *)
Definition accept_actions (t : Task) (fn : Fn) (args : Args) (kwargs : Kwargs)
    (h : nat) : list Action :=
  [SchedulerSubmit (scheduler t) fn args kwargs (Some h);
   QueueAppend h;
   Emit (sub_manager (on_submitted t)) (sub_event (on_submitted t)) h
        (PArgs args kwargs) (queue t ++ [h]);
   AddDoneCallback h].

Definition finalizer_result (st : FutureState Ret Exn) : Res unit :=
  match st with
  | FPending => Raise InvalidStateError
  | _ => Ok tt
  end.


(** The subscribers of a task are the ones [__init__] declares. *)
Definition subscribers_ok (t : Task) : Prop :=
  on_submitted t = mkSubscriber (unique_ref t) SUBMITTED ∧
  on_done t = mkSubscriber (unique_ref t) DONE ∧
  on_returned t = mkSubscriber (unique_ref t) RETURNED ∧
  on_exception t = mkSubscriber (unique_ref t) EXCEPTION ∧
  on_cancelled t = mkSubscriber (unique_ref t) CANCELLED.

(** ** The life of a future, read off the state

    The events that close the life of a future in state [st]. *)
Definition final_events (st : FutureState Ret Exn) : list Event :=
  match st with
  | FPending => [DONE]
  | FResult _ => [DONE; RETURNED]
  | FException _ => [DONE; EXCEPTION]
  | FCancelled => [CANCELLED]
  end.


(** Where the future [h] stands between two stimuli: not handed out yet;
    pending, in the queue, with the hook of the task registered on it and
    only [submitted] emitted; or terminal, out of the queue, finalized, with
    its lifecycle emitted in full. *)
Definition history_ok (t : Task) (e : Env) (h : nat) : Prop :=
  match futures e !! h with
  | None =>
      (h ∉ queue t) ∧ events_of h (trace e) = [] ∧ (QueueRemove h ∉ trace e)
  | Some fo =>
      if future_done (fstate fo) then
        (h ∉ queue t) ∧ (QueueRemove h ∈ trace e) ∧
        events_of h (trace e) = SUBMITTED :: final_events (fstate fo)
      else
        (h ∈ queue t) ∧ done_callbacks fo = [unique_ref t] ∧
        events_of h (trace e) = [SUBMITTED] ∧ (QueueRemove h ∉ trace e)
  end.

(** Every emission other than [submitted] comes after the removal of its
    future from the queue, and shows a queue without that future. *)
Definition observed_ok (tr : list Action) : Prop :=
  ∀ i m ev h pl q,
    tr !! i = Some (Emit m ev h pl q) → ev ≠ SUBMITTED →
    (h ∉ q) ∧ ∃ j, j < i ∧ tr !! j = Some (QueueRemove h).

(** All emissions of a piece of trace are addressed to one namespace. *)
Definition emitted_under (manager : UniqueRef) (tr : list Action) : Prop :=
  ∀ m ev h pl q, Emit m ev h pl q ∈ tr → m = manager.

(** The calls on plugins and on a rejecting backend: they leave the
    futures and the queue alone. *)
Definition is_quiet (a : Action) : Prop :=
  match a with
  | PreSubmit _ _ _ _ _ | SchedulerSubmit _ _ _ _ None => True
  | _ => False
  end.

Definition consistent (t : Task) (e : Env) : Prop :=
  subscribers_ok t ∧ NoDup (queue t) ∧ (∀ h, history_ok t e h) ∧
  observed_ok (trace e).

(** ** How a task moves

    The three moves a task makes: calls on plugins and on a rejecting
    backend; the acceptance of a submission up to the registration of the
    hook on a pending future; the finalization of a future that has reached
    the terminal state [st]. A submission completed inline is an acceptance
    followed by a finalization. *)
Inductive evolves (t : Task) (e : Env) : Task → Env → Prop :=
  | evolves_quiet e' X :
      futures e' = futures e →
      trace e' = trace e ++ X →
      Forall is_quiet X →
      evolves t e t e'
  | evolves_accept e' h fn a k X :
      futures e !! h = None →
      Forall is_quiet X →
      trace e' = trace e ++ X ++ accept_actions t fn a k h →
      futures e' = <[h := mkFuture FPending [unique_ref t]]> (futures e) →
      evolves t e (with_queue (queue t ++ [h]) t) e'
  | evolves_finalize e' h st q :
      list_remove h (queue t) = Some q →
      future_done st = true →
      trace e' = trace e ++ finalizer_actions t h st q →
      futures e' = <[h := mkFuture st []]> (futures e) →
      evolves t e (with_queue q t) e'.

(** An emission of [returned] carries the result its future holds, an
    emission of [exception] the error its future holds. *)
Definition carries (e : Env) (a : Action) : Prop :=
  match a with
  | Emit _ ev h pl _ =>
      (ev = RETURNED →
       ∃ r cbs, pl = PResult r ∧ futures e !! h = Some (mkFuture (FResult r) cbs)) ∧
      (ev = EXCEPTION →
       ∃ err cbs, pl = PException err ∧
                  futures e !! h = Some (mkFuture (FException err) cbs))
  | _ => True
  end.

Definition payloads_ok (e : Env) : Prop := ∀ a, a ∈ trace e → carries e a.

(** What [futures] returns lists the futures in the order in which
    [submitted] was emitted for them. *)
Definition in_submission_order (t : Task) (e : Env) : Prop :=
  ∀ i j h1 h2,
    futures_ t !! i = Some h1 → futures_ t !! j = Some h2 → i < j →
    ∃ a b m1 m2 pl1 pl2 q1 q2,
      a < b ∧
      trace e !! a = Some (Emit m1 SUBMITTED h1 pl1 q1) ∧
      trace e !! b = Some (Emit m2 SUBMITTED h2 pl2 q2).


(** ** Subscriptions *)

(** Modelled from the spec: the registrations of section 4.1 (the [Emitter]
    class is missing): callbacks, each under a namespace and an event, in
    registration order. *)
Definition Subscriptions : Type := list (UniqueRef * Event * nat).

(** Modelled from the spec: the registration surface of section 4.1,
    [subscriber(callback)] (the [Subscriber] class is missing): the callback
    is registered under the namespace and the event of the subscriber. *)
Definition subscribe (sub : Subscriber) (callback : nat) (subs : Subscriptions)
  : Subscriptions :=
  subs ++ [(sub_manager sub, sub_event sub, callback)].

(** Modelled from the spec: "every currently registered callback for
    (namespace, event), in registration order", section 4.1 (the [Emitter]
    class is missing). *)
Definition callbacks_for (subs : Subscriptions) (manager : UniqueRef) (ev : Event)
  : list nat :=
  omap (λ '(m, ev', cb),
          if decide (m = manager ∧ ev' = ev) then Some cb else None) subs.

(** Modelled from the spec: the routing of section 4.1 (the [Emitter] class
    is missing): the callbacks the emissions of a trace invoke, in order,
    with the event and the future each is invoked for. *)
Definition invoked (subs : Subscriptions) (tr : list Action) : list (nat * Event * nat) :=
  tr ≫= (λ a, match a with
              | Emit m ev h _ _ => (λ cb, (cb, ev, h)) <$> callbacks_for subs m ev
              | _ => []
              end).

End Task.

Arguments Ok {_ _} a.
Arguments Raise {_ _} e.

(** ** A concrete setting

    Callables are numbered, arguments and results are integers, keyword
    arguments are absent. A plugin holds a counter and a limit: while the
    counter is below the limit it lets the call through, replacing the
    callable [fn] by [fn + 100] and the argument [x] by [x + 1]; from then on
    it vetoes. Scheduler 0 is sequential and runs callable [fn] on [x] inline,
    returning [2 * x] ([fn = 7] raises); scheduler 1 is a pool and hands out
    pending futures; every other scheduler has been shut down. *)
Module Demo.

#[export] Instance demo : Collaborators := {|
  Fn := nat;
  Args := Z;
  Kwargs := unit;
  Ret := Z;
  Exn := string;
  PluginState := nat * nat;
  BackendState := unit;
  funcname := λ fn, "f";
  plugin_pre_submit := λ '(count, limit) fn args kwargs,
    if decide (count < limit)
    then ((Datatypes.S count, limit), Some (fn + 100, (args + 1)%Z, kwargs))
    else ((count, limit), None);
  plugin_copy := λ '(count, limit), (0, limit);
  plugin_attach_task := λ st _, st;
  backend_submit := λ s b fn args kwargs,
    match s with
    | 0 => (b, Some (if decide (fn = 7) then FException "boom" else FResult (2 * args)%Z))
    | 1 => (b, Some FPending)
    | _ => (b, None)
    end
|}.

Definition env0 (ph : gmap nat (nat * nat)) : Env := mkEnv ph ∅ tt 0 [].

(** Three plugin objects: 0 and 2 let five calls through, 1 only one. *)
Definition heap0 : gmap nat (nat * nat) :=
  <[0 := (0, 5)]> (<[1 := (0, 1)]> (<[2 := (0, 5)]> ∅)).

(** The task [Task(f, scheduler, plugins=[p0, p1, p2])] for callable 5, as
    [__init__] builds it in [env0 heap0], and the environment it leaves. *)
Definition ref0 : UniqueRef := mkUniqueRef "f" 0.

Definition task0 (scheduler : nat) : Task :=
  mkTask "f" 0 ref0 [0; 1; 2] 5 scheduler true []
         (mkSubscriber ref0 SUBMITTED) (mkSubscriber ref0 DONE)
         (mkSubscriber ref0 RETURNED) (mkSubscriber ref0 EXCEPTION)
         (mkSubscriber ref0 CANCELLED).

Definition world0 : Env := mkEnv heap0 ∅ tt 1 [].

(** One submission on the pool, after which plugin 1 has used up its limit. *)
Definition after_one : Task * Env := run [Submit 5%Z tt] (task0 1, world0).

(** The second submission, which plugin 1 vetoes; a submission to a
    scheduler that has been shut down; one to the pool; one to the
    sequential scheduler. *)
Definition vetoed := submit 5%Z tt after_one.
Definition rejected := submit 5%Z tt (task0 2, world0).
Definition pooled := submit 5%Z tt (task0 1, world0).
Definition inline := submit 5%Z tt (task0 0, world0).

(** A task without plugins for callable [fn], and a world without plugin
    objects. *)
Definition plain (fn scheduler : nat) : Task :=
  mkTask "f" 0 ref0 [] fn scheduler true []
         (mkSubscriber ref0 SUBMITTED) (mkSubscriber ref0 DONE)
         (mkSubscriber ref0 RETURNED) (mkSubscriber ref0 EXCEPTION)
         (mkSubscriber ref0 CANCELLED).

Definition empty_world : Env := mkEnv ∅ ∅ tt 1 [].

(** Callback 7 registered with [task.on_returned(callback)]. *)
Definition on_returned_7 : Subscriptions := subscribe (on_returned (plain 5 0)) 7 [].

(** [task.copy().submit(5)] on the sequential scheduler. *)
Definition copy_then_submit : Res (option nat) * (Task * Env) :=
  match copy (plain 5 0) true empty_world with
  | (Ok t', e') => submit 5%Z tt (t', e')
  | (Raise err, e') => (Raise err, (plain 5 0, e'))
  end.

(** The three components of what a method returns. *)
Definition result {A} (x : Res A * (Task * Env)) : Res A := x.1.
Definition task_after {A} (x : Res A * (Task * Env)) : Task := x.2.1.
Definition env_after {A} (x : Res A * (Task * Env)) : Env := x.2.2.

(** The pooled future 0 of [plain 5 1] has got its result 10 and its hooks
    have not run yet; then the finalizer runs for it. *)
Definition landed : Task * Env :=
  (with_queue [0] (plain 5 1),
   mkEnv ∅ (<[0 := mkFuture (FResult 10%Z) []]> ∅) tt 1 []).
Definition finalized := _process_future 0 landed.

(** Plugin 2 attached to a task that had plugin 0 only, and a submission
    after it. *)
Definition attached := attach_plugin 2 (set_plugins [0] (task0 1), world0).
Definition submitted_after_attach :=
  submit 5%Z tt (task_after attached, env_after attached).


(** The same task on the pool. *)
Definition task12 : Task := set_plugins [0; 2] (task0 1).

End Demo.

(** * The steps of a pipeline: [byop/pipeline/step.py]

    A [Step] is a frozen attrs class with a name and the two links [prv] and
    [nxt] of a doubly linked list; [chain] breaks the frozen interface with
    [object.__setattr__] to link the copies it makes. Steps are objects of a
    heap, and the links are references into it. What a subclass adds to a
    step is kept as [attrs]. A generator is read as the list of what it
    yields when it is run to its end. *)
Module Step.

Inductive Error :=
  | ValueError          (* no step to join; [last] of an empty iterator *)
  | RecursionError      (* the nested generators of [iter] exceed the limit *)
  | DanglingReference.  (* not a Python exception: a reference the heap lacks *)

Inductive Result (A : Type) :=
  | Ok (a : A)
  | Raise (err : Error).
Arguments Ok {A} a.
Arguments Raise {A} err.

(** An argument of [chain] and [join]: a step, or an iterable of steps. *)
Inductive Arg :=
  | One (step : nat)
  | Many (steps : list nat).

Section Step.
Context {Key : Type} `{EqDecision Key} {Attrs : Type}.

Record StepObj := mkStep {
  name : Key;
  attrs : Attrs;
  prv : option nat;
  nxt : option nat
}.

(** [Step.iter], for [to] a key or [None]. The generator of a step calls
    the generator of its neighbour: [limit] bounds the depth of this
    nesting, as the recursion limit of the interpreter does. *)
Fixpoint iter (limit : nat) (σ : gmap nat StepObj) (self : nat)
    (backwards include_self : bool) (to : option Key) : Result (list nat) :=
  match limit with
  | 0 => Raise RecursionError
  | S limit' =>
      match σ !! self with
      | None => Raise DanglingReference
      | Some s =>
          if decide (to = Some (name s)) then Ok []
          else
            let this := if include_self then [self] else [] in
            match (if backwards then prv s else nxt s) with
            | None => Ok this
            | Some r =>
                match iter limit' σ r backwards true to with
                | Ok rest => Ok (this ++ rest)
                | Raise err => Raise err
                end
            end
      end
  end.


(** [more_itertools.last(iterable)]: the last item, [ValueError] when there
    is none. *)
Definition last_of (r : Result (list nat)) : Result nat :=
  match r with
  | Ok l => match last l with Some x => Ok x | None => Raise ValueError end
  | Raise err => Raise err
  end.

(** [Step.head] *)
Definition head (limit : nat) (σ : gmap nat StepObj) (self : nat) : Result nat :=
  last_of (iter limit σ self true true None).

(** [Step.tail] *)
Definition tail (limit : nat) (σ : gmap nat StepObj) (self : nat) : Result nat :=
  last_of (iter limit σ self false true None).

(** [Step.proceeding] *)
Definition proceeding (limit : nat) (σ : gmap nat StepObj) (self : nat)
  : Result (list nat) :=
  iter limit σ self false false None.

(** [Step.preceeding] *)
Definition preceeding (limit : nat) (σ : gmap nat StepObj) (self : nat)
  : Result (list nat) :=
  iter limit σ self true false None.

(** [Step.mutate], for keyword arguments that give a new name, new
    attributes of the subclass, both or none:
    [evolve(self, **{**kwargs, "prv": None, "nxt": None})] is a new object. *)
Definition mutate (σ : gmap nat StepObj) (self : nat)
    (new_name : option Key) (new_attrs : option Attrs)
  : Result nat * gmap nat StepObj :=
  match σ !! self with
  | None => (Raise DanglingReference, σ)
  | Some s =>
      let r := fresh (dom σ) in
      (Ok r,
       <[r := mkStep (default (name s) new_name) (default (attrs s) new_attrs)
                     None None]> σ)
  end.

(** [chain.from_iterable((s.iter() if expand else [s]) if isinstance(s, Step)
    else s for s in steps)] *)
Fixpoint expanded (limit : nat) (σ : gmap nat StepObj) (steps : list Arg)
    (expand : bool) : Result (list nat) :=
  match steps with
  | [] => Ok []
  | arg :: steps' =>
      let these :=
        match arg with
        | One s => if expand then iter limit σ s false true None else Ok [s]
        | Many ss => Ok ss
        end in
      match these with
      | Raise err => Raise err
      | Ok l =>
          match expanded limit σ steps' expand with
          | Ok rest => Ok (l ++ rest)
          | Raise err => Raise err
          end
      end
  end.

(** [copy(s) for s in expanded]: a new object per step, with the attributes
    and the links of the step it copies. *)
Fixpoint copies (σ : gmap nat StepObj) (steps : list nat)
  : Result (list nat) * gmap nat StepObj :=
  match steps with
  | [] => (Ok [], σ)
  | s :: steps' =>
      match σ !! s with
      | None => (Raise DanglingReference, σ)
      | Some obj =>
          let r := fresh (dom σ) in
          match copies (<[r := obj]> σ) steps' with
          | (Ok rest, σ') => (Ok (r :: rest), σ')
          | (Raise err, σ') => (Raise err, σ')
          end
      end
  end.

(** [object.__setattr__(b, "prv", a); object.__setattr__(b, "nxt", c)] *)
Definition set_links (a c : option nat) (b : StepObj) : StepObj :=
  mkStep (name b) (attrs b) a c.

(** [for a, b, c in triplewise(chain([None], new_steps, [None]))]: the loop
    over the remaining new steps, [a] being the one before them. *)
Fixpoint link (σ : gmap nat StepObj) (a : option nat) (new_steps : list nat)
  : gmap nat StepObj :=
  match new_steps with
  | [] => σ
  | b :: rest => link (alter (set_links a (List.head rest)) b σ) (Some b) rest
  end.

(** [Step.chain], run to its end: the steps it yields. *)
Definition chain (limit : nat) (σ : gmap nat StepObj) (steps : list Arg)
    (expand : bool) : Result (list nat) * gmap nat StepObj :=
  match expanded limit σ steps expand with
  | Raise err => (Raise err, σ)
  | Ok old =>
      match copies σ old with
      | (Raise err, σ') => (Raise err, σ')
      | (Ok [], σ') => (Ok [], σ')
      | (Ok new_steps, σ') => (Ok new_steps, link σ' None new_steps)
      end
  end.

(** [Step.join] *)
Definition join (limit : nat) (σ : gmap nat StepObj) (steps : list Arg)
  : Result nat * gmap nat StepObj :=
  match chain limit σ steps true with
  | (Raise err, σ') => (Raise err, σ')
  | (Ok [], σ') => (Raise ValueError, σ')
  | (Ok (head :: _), σ') => (Ok head, σ')
  end.

(** [Step.append] *)
Definition append (limit : nat) (σ : gmap nat StepObj) (self nxt : nat)
  : Result nat * gmap nat StepObj :=
  join limit σ [One self; One nxt].

(** [Step.extend] *)
Definition extend (limit : nat) (σ : gmap nat StepObj) (self : nat) (nxt : list nat)
  : Result nat * gmap nat StepObj :=
  join limit σ [One self; Many nxt].

(** [Step.__or__], for [nxt] a step. *)
Definition or_ (limit : nat) (σ : gmap nat StepObj) (self nxt : nat)
  : Result nat * gmap nat StepObj :=
  append limit σ self nxt.

(** The names of a list of steps. *)
Definition names (σ : gmap nat StepObj) (steps : list nat) : list (option Key) :=
  (λ r, name <$> σ !! r) <$> steps.

(** The steps [rs] are the objects of one chain, in order: each is linked to
    the one before it and the one after it, the first and the last to
    nothing. *)
Definition linked (σ : gmap nat StepObj) (rs : list nat) : Prop :=
  NoDup rs ∧
  ∀ i r, rs !! i = Some r →
         ∃ s, σ !! r = Some s ∧
              prv s = match i with 0 => None | S j => rs !! j end ∧
              nxt s = rs !! S i.

(** [path] is what following the links in one direction visits, from its
    first step to the step that has no link in this direction. *)
Definition follows (σ : gmap nat StepObj) (backwards : bool) (path : list nat) : Prop :=
  ∀ k x, path !! k = Some x →
         ∃ s, σ !! x = Some s ∧ (if backwards then prv s else nxt s) = path !! S k.

End Step.

(** A heap with the chain a - b - c (objects 0, 1, 2) and the lone step d
    (object 3), keys being strings. *)
Definition demo_heap : gmap nat (@StepObj string unit) :=
  <[0 := mkStep "a" tt None (Some 1)]>
    (<[1 := mkStep "b" tt (Some 0) (Some 2)]>
       (<[2 := mkStep "c" tt (Some 1) None]>
          (<[3 := mkStep "d" tt None None]> ∅))).

End Step.

(** * Telling Optuna the outcome of a trial:
      [amltk/optimization/optimizers/optuna.py]

    [OptunaOptimizer.tell] turns the report of a trial into one call of
    [study.tell]. The classes it reads from ([Trial], [Trial.Report],
    [Metric], [Metric.Value]) and the Optuna study are not part of the
    sources: what [tell] uses of them is taken as given, and the study is
    the list of the calls it has received. *)
Module Optuna.

(** [Metric.Value]: read through [.metric] and [.value]. *)
Record MetricValue (Metric Value : Type) := mkValue {
  metric : Metric;
  value : Value
}.
Arguments mkValue {Metric Value} metric value.
Arguments metric {Metric Value} m.
Arguments value {Metric Value} m.

Class Optimization := {
  Name : Type;                       (* what [metric.name] is, a dict key *)
  Name_eq :: EqDecision Name;
  Name_countable :: Countable Name;
  Value : Type;                      (* what [Metric.Value.value] is *)
  Metric : Type;
  OptunaTrial : Type;                (* [optuna.Trial], kept in [trial.info] *)
  Status : Type;                     (* the enumeration [Trial.Status] *)
  Status_eq :: EqDecision Status;
  SUCCESS : Status;
  FAIL : Status;
  CRASHED : Status;
  UNKNOWN : Status;
  metric_name : Metric → Name;       (* [metric.name] *)
  metric_eq : Metric → Metric → bool;  (* [m == metric] *)
  worst : Metric → MetricValue Metric Value  (* [metric.worst] *)
}.

(** [optuna.trial.TrialState], the two members [tell] uses. *)
Inductive TrialState :=
  | TrialState_COMPLETE
  | TrialState_FAIL.

Inductive Error :=
  | AssertionError.  (* [assert trial is not None] *)

Inductive Result (A : Type) :=
  | Ok (a : A)
  | Raise (err : Error).
Arguments Ok {A} a.
Arguments Raise {A} err.

Section Optuna.
Context `{Optimization}.

(** [values=] of [study.tell]: one number, or a list of numbers. *)
Inductive Values :=
  | Single (v : Value)
  | Several (vs : list Value).

(** A call [study.tell(trial=, state=, values=)]. *)
Record StudyTell := mkStudyTell {
  told_trial : OptunaTrial;
  told_state : TrialState;
  told_values : option Values
}.

(** What [tell] reads of a report: [report.trial.info], [report.status] and
    [report.metric_values]. *)
Record Report := mkReport {
  info : option OptunaTrial;
  status : Status;
  metric_values : list (MetricValue Metric Value)
}.

(** What [tell] reads of the optimizer: [self.metrics], which [__init__]
    makes a sequence, and [self.study]. *)
Record OptunaOptimizer := mkOptimizer {
  metrics : list Metric;
  study : list StudyTell
}.

(** [self.study.tell(...)] *)
Definition study_tell (trial : OptunaTrial) (state : TrialState)
    (values : option Values) (self : OptunaOptimizer) : OptunaOptimizer :=
  mkOptimizer (metrics self) (study self ++ [mkStudyTell trial state values]).

(** [more_itertools.first_true(iterable, pred=, default=)] *)
Definition first_true {A} (iterable : list A) (pred : A → bool) (default : A) : A :=
  match filter (λ x, pred x = true) iterable with
  | x :: _ => x
  | [] => default
  end.

(** [{v.metric.name: v for v in report.metric_values}] *)
Definition _lookup (metric_values : list (MetricValue Metric Value))
  : gmap Name (MetricValue Metric Value) :=
  foldl (λ d v, <[metric_name (metric v) := v]> d) ∅ metric_values.

(** [OptunaOptimizer.tell] *)
Definition tell (self : OptunaOptimizer) (report : Report) : Result OptunaOptimizer :=
  match info report with
  | None => Raise AssertionError
  | Some trial =>
      if decide (status report = CRASHED ∨ status report = UNKNOWN
                 ∨ status report = FAIL)
      then Ok (study_tell trial TrialState_FAIL None self)
      else if decide (status report = SUCCESS) then
        match metrics self with
        | [metric] =>
            let metric_value :=
              first_true (metric_values report)
                         (λ m, metric_eq (Optuna.metric m) metric) (worst metric) in
            Ok (study_tell trial TrialState_COMPLETE
                           (Some (Single (value metric_value))) self)
        | metrics =>
            let values :=
              (λ metric,
                 value (default (worst metric)
                                (_lookup (metric_values report) !! metric_name metric)))
                <$> metrics in
            Ok (study_tell trial TrialState_COMPLETE (Some (Several values)) self)
        end
      else Ok self
  end.

End Optuna.

(** A concrete setting: a metric is its name and whether it is minimized,
    the worst value of a metric to minimize is 1000 and of one to maximize
    -1000; the statuses are numbered. *)
#[export] Instance demo_optimization : Optimization := {|
  Name := string;
  Value := Z;
  Metric := string * bool;
  OptunaTrial := nat;
  Status := nat;
  SUCCESS := 0;
  FAIL := 1;
  CRASHED := 2;
  UNKNOWN := 3;
  metric_name := fst;
  metric_eq := λ m1 m2, bool_decide (m1 = m2);
  worst := λ m, mkValue m (if m.2 then 1000 else -1000)%Z
|}.

Definition accuracy : string * bool := ("accuracy", false).
Definition cost : string * bool := ("cost", true).

(** The optimizer of accuracy and cost, and the one of accuracy alone. *)
Definition both : OptunaOptimizer := mkOptimizer [accuracy; cost] [].
Definition alone : OptunaOptimizer := mkOptimizer [accuracy] [].

End Optuna.

(** * Properties *)

#[local] Set Warnings "-clear-no-such-hyp".

Section Properties.
Context `{Collaborators}.

Implicit Types (t : Task) (e : Env) (h : nat) (q : list nat).

(** ** [list.remove] *)

Lemma list_remove_None x q : list_remove x q = None ↔ x ∉ q.
Proof.
  induction q as [|y q IH]; simpl.
  - split; [intros _; apply not_elem_of_nil | done].
  - case_decide as Hy.
    + subst. split; [done | intros []; left].
    + destruct (list_remove x q) eqn:Hr.
      * split; [done |]. intros Hn. exfalso.
        assert (x ∉ q) as Hq by (intros ?; apply Hn; by right).
        apply IH in Hq. done.
      * split; [| done]. intros _ [?|?]%elem_of_cons; [congruence |].
        by apply (proj1 IH).
Qed.

Lemma list_remove_Some x q q' :
  list_remove x q = Some q' ↔ (∃ l1 l2, q = l1 ++ (x :: l2) ∧ (x ∉ l1) ∧ q' = l1 ++ l2).
Proof.
  revert q'. induction q as [|y q IH]; intros q'; simpl.
  - split; [done |]. intros (l1 & l2 & Hq & _). by destruct l1.
  - case_decide as Hy.
    + subst y. split.
      * intros [= <-]. exists [], q. split_and!; [done | apply not_elem_of_nil | done].
      * intros (l1 & l2 & Hq & Hn & ->). destruct l1 as [|z l1]; simplify_eq/=; [done |].
        exfalso. apply Hn. left.
    + destruct (list_remove x q) as [r|] eqn:Hr.
      * split.
        -- intros [= <-]. destruct (proj1 (IH r) eq_refl) as (l1 & l2 & -> & Hn & ->).
           exists (y :: l1), l2. split_and!; [done | | done].
           intros [?|?]%elem_of_cons; [congruence | done].
        -- intros (l1 & l2 & Hq & Hn & ->). destruct l1 as [|z l1]; simplify_eq/=.
           f_equal. f_equal. assert (Some r = Some (l1 ++ l2)) as [= ->]; [| done].
           apply IH. exists l1, l2. split_and!; [done | | done].
           intros ?. apply Hn. by right.
      * split; [done |]. intros (l1 & l2 & Hq & Hn & ->).
        destruct l1 as [|z l1]; simplify_eq/=.
        apply list_remove_None in Hr. exfalso. apply Hr.
        apply elem_of_app. right. left.
Qed.

Lemma list_remove_is_Some x q : x ∈ q → is_Some (list_remove x q).
Proof.
  intros Hx. destruct (list_remove x q) eqn:Hr; [by eexists |].
  by apply list_remove_None in Hr.
Qed.

Lemma list_remove_elem_of x q q' :
  list_remove x q = Some q' → x ∈ q.
Proof.
  intros (l1 & l2 & -> & _)%list_remove_Some. apply elem_of_app. right. left.
Qed.

Lemma list_remove_other x y q q' :
  list_remove x q = Some q' → y ≠ x → (y ∈ q' ↔ y ∈ q).
Proof.
  intros (l1 & l2 & -> & _ & ->)%list_remove_Some Hne.
  rewrite !elem_of_app, elem_of_cons. naive_solver.
Qed.

Lemma list_remove_keeps x y q q' :
  list_remove x (q ++ [x]) = Some q' → y ∈ q → y ∈ q'.
Proof.
  intros (l1 & l2 & Hq & Hn & ->)%list_remove_Some Hy.
  destruct (decide (y = x)) as [->|Hne].
  - (* the occurrence dropped is the first one; a later one stays *)
    induction l2 as [|z l2 _] using rev_ind.
    + apply (inj (λ l, l ++ [x])) in Hq. by subst.
    + rewrite app_comm_cons, app_assoc in Hq. apply app_inj_tail in Hq as [_ <-].
      rewrite elem_of_app. right. apply elem_of_app. right. left.
  - assert (y ∈ l1 ++ x :: l2) as Hin by (rewrite <- Hq; apply elem_of_app; by left).
    revert Hin. rewrite !elem_of_app, elem_of_cons. naive_solver.
Qed.


Lemma list_remove_NoDup x q q' :
  NoDup q → list_remove x q = Some q' → NoDup q' ∧ x ∉ q'.
Proof.
  intros Hnd (l1 & l2 & -> & Hn & ->)%list_remove_Some.
  apply NoDup_app in Hnd as (Hl1 & Hdisj & [Hx Hl2]%NoDup_cons).
  split.
  - apply NoDup_app. split_and!; [done | | done].
    intros z Hz1 Hz2. apply (Hdisj z Hz1). by right.
  - rewrite elem_of_app. naive_solver.
Qed.

(** ** Unfolding computations *)

Ltac unfold_se :=
  unfold bind, ret, raise, lift, of_res, get_self, set_queue, log in *.

Lemma trace_record a e : trace (record a e) = trace e ++ [a].
Proof. done. Qed.

Lemma new_actions_app e e' acts :
  trace e' = trace e ++ acts → new_actions e e' = acts.
Proof. unfold new_actions. intros ->. by rewrite drop_app_length. Qed.

(** ** The plugin loop *)

Lemma for_plugins_spec ps fn args kwargs e r e' :
  for_plugins ps fn args kwargs e = (r, e') →
  futures e' = futures e ∧ backend e' = backend e ∧
  uuid_supply e' = uuid_supply e ∧
  dom (plugin_heap e') = dom (plugin_heap e) ∧
  ∃ acts, trace e' = trace e ++ acts ∧ threaded (fn, args, kwargs) ps acts r.
Proof.
  revert fn args kwargs e r e'.
  induction ps as [|p ps IH]; intros fn args kwargs e r e' Hrun; simpl in Hrun.
  - unfold_se. simplify_eq. split_and!; try done.
    exists []. split; [by rewrite app_nil_r | constructor].
  - unfold bind, pre_submit in Hrun.
    destruct (plugin_heap e !! p) as [st|] eqn:Hp.
    + destruct (plugin_pre_submit st fn args kwargs) as [st' items] eqn:Hpre.
      destruct items as [[[fn' args'] kwargs']|].
      * apply IH in Hrun as (Hf & Hb & Hu & Hd & acts & Htr & Hth). simpl in *.
        split_and!; try done.
        -- rewrite Hd, dom_insert_L.
           assert (p ∈ dom (plugin_heap e)) by (apply elem_of_dom; eauto).
           set_solver.
        -- exists (PreSubmit p fn args kwargs (Some (fn', args', kwargs')) :: acts).
           split; [by rewrite Htr, <- app_assoc | by constructor].
      * unfold ret in Hrun. simplify_eq. simpl. split_and!; try done.
        -- rewrite dom_insert_L.
           assert (p ∈ dom (plugin_heap e)) by (apply elem_of_dom; eauto).
           set_solver.
        -- eexists. split; [done | constructor].
    + simplify_eq. split_and!; try done.
      exists []. split; [by rewrite app_nil_r | constructor].
Qed.

(** ** The finalizer, case by case *)

Lemma process_future_absent h t e :
  list_remove h (queue t) = None →
  _process_future h (t, e) = (Raise (ValueError h (queue t)), (t, e)).
Proof.
  intros Hr. unfold _process_future, queue_remove. unfold_se. simpl.
  by rewrite Hr.
Qed.

Lemma process_future_present h t e q fo :
  list_remove h (queue t) = Some q →
  futures e !! h = Some fo →
  ∃ e', _process_future h (t, e) = (finalizer_result (fstate fo), (with_queue q t, e')) ∧
        plugin_heap e' = plugin_heap e ∧ futures e' = futures e ∧
        backend e' = backend e ∧ uuid_supply e' = uuid_supply e ∧
        trace e' = trace e ++ finalizer_actions t h (fstate fo) q.
Proof.
  intros Hr Hf. unfold _process_future, queue_remove, get_future, emit. unfold_se.
  simpl. rewrite Hr. simpl. rewrite Hf.
  destruct (fstate fo) eqn:Hst; simpl;
    (eexists; split; [reflexivity |]); simpl;
    split_and!; try done; by rewrite <- ?app_assoc.
Qed.

Lemma process_future_dangling h t e q :
  list_remove h (queue t) = Some q →
  futures e !! h = None →
  _process_future h (t, e) =
    (Raise DanglingReference, (with_queue q t, record (QueueRemove h) e)).
Proof.
  intros Hr Hf. unfold _process_future, queue_remove, get_future. unfold_se.
  simpl. rewrite Hr. simpl. by rewrite Hf.
Qed.

(** ** [__call__], case by case *)

Lemma call_spec args kwargs t e r t' e' :
  __call__ args kwargs (t, e) = (r, (t', e')) →
  ∃ acts r0,
    threaded (function t, args, kwargs) (plugins t) acts r0 ∧
    dom (plugin_heap e') = dom (plugin_heap e) ∧
    uuid_supply e' = uuid_supply e ∧
    match r0 with
    | Raise err =>
        r = Raise err ∧ t' = t ∧ futures e' = futures e ∧
        trace e' = trace e ++ acts
    | Ok None =>
        r = Ok None ∧ t' = t ∧ futures e' = futures e ∧
        trace e' = trace e ++ acts
    | Ok (Some (fn, a, k)) =>
        match (backend_submit (scheduler t) (backend e) fn a k).2 with
        | None =>
            r = Ok None ∧ t' = t ∧ futures e' = futures e ∧
            trace e' = trace e ++ acts ++ [SchedulerSubmit (scheduler t) fn a k None]
        | Some st =>
            let h := fresh (dom (futures e)) in
            r = Ok (Some h) ∧
            ∃ fin,
              trace e' = trace e ++ acts ++ accept_actions t fn a k h ++ fin ∧
              if future_done st then
                ∃ q, list_remove h (queue t ++ [h]) = Some q ∧
                     t' = with_queue q t ∧
                     fin = finalizer_actions t h st q ∧
                     futures e' = <[h := mkFuture st []]> (futures e)
              else
                fin = [] ∧ t' = with_queue (queue t ++ [h]) t ∧
                futures e' = <[h := mkFuture st [unique_ref t]]> (futures e)
        end
    end.
Proof.
  intros Hcall. unfold __call__ in Hcall. unfold_se.
  destruct (for_plugins (plugins t) (function t) args kwargs e) as [r0 e1] eqn:Hloop.
  apply for_plugins_spec in Hloop as (Hf1 & Hb1 & Hu1 & Hd1 & acts & Htr1 & Hth).
  exists acts, r0. split; [done |].
  destruct r0 as [[[[fn a] k]|]|err]; simpl in Hcall.
  2,3: by simplify_eq.
  unfold scheduler_submit in Hcall. rewrite Hb1 in Hcall.
  destruct (backend_submit (scheduler t) (backend e) fn a k) as [b ans] eqn:Hback.
  simpl. destruct ans as [st|]; simpl in Hcall.
  2: { simplify_eq. simpl. split_and!; try done.
       by rewrite Htr1, <- app_assoc. }
  rewrite Hf1 in Hcall.
  set (h := fresh (dom (futures e))) in *.
  unfold queue_append, emit, add_done_callback, get_future in Hcall. unfold_se.
  simpl in Hcall. rewrite lookup_insert_eq in Hcall. simpl in Hcall.
  destruct (future_done st) eqn:Hdone.
  - destruct (list_remove_is_Some h (queue t ++ [h])) as [q Hq].
    { apply elem_of_app. right. left. }
    match type of Hcall with
    | context [_process_future h (?t1, ?e2)] =>
        destruct (process_future_present h t1 e2 q (mkFuture st [])) as
          (e3 & Hpf & Hp3 & Hf3 & Hb3 & Hu3 & Htr3);
          [done | by (simpl; rewrite lookup_insert_eq) |]
    end.
    rewrite Hpf in Hcall. simpl in *.
    destruct st; try done; simpl in Hcall; simplify_eq.
    all: split_and!; try done; try congruence.
    all: eexists; split;
      [rewrite Htr3, Htr1; unfold accept_actions; simpl;
       rewrite <- !app_assoc; simpl; reflexivity |].
    all: exists q; split_and!; done.
  - simplify_eq. simpl. split_and!; try done.
    exists []. split.
    + rewrite Htr1. unfold accept_actions. rewrite <- !app_assoc. simpl. done.
    + split_and!; try done. by rewrite insert_insert_eq.
Qed.

(** ** Traces of the plugin loop *)

Lemma hook_calls_PreSubmit p fn args kwargs items tr :
  hook_calls (PreSubmit p fn args kwargs items :: tr) =
  (p, (fn, args, kwargs), items) :: hook_calls tr.
Proof. done. Qed.

Lemma hook_calls_app tr1 tr2 : hook_calls (tr1 ++ tr2) = hook_calls tr1 ++ hook_calls tr2.
Proof. apply omap_app. Qed.

Lemma dispatches_app tr1 tr2 : dispatches (tr1 ++ tr2) = dispatches tr1 ++ dispatches tr2.
Proof. apply omap_app. Qed.

Lemma events_of_app h tr1 tr2 : events_of h (tr1 ++ tr2) = events_of h tr1 ++ events_of h tr2.
Proof. apply omap_app. Qed.

Lemma threaded_PreSubmit x ps acts r :
  threaded x ps acts r → Forall is_PreSubmit acts.
Proof. induction 1; repeat constructor; done. Qed.

Lemma threaded_length x ps acts r :
  threaded x ps acts r → length acts ≤ length ps.
Proof. induction 1; simpl; lia. Qed.


Lemma threaded_consulted x ps acts r :
  threaded x ps acts r → consulted acts = take (length acts) ps.
Proof.
  unfold consulted.
  induction 1 as [| | p ps fn args kwargs y acts r _ IH |]; try done.
  rewrite hook_calls_PreSubmit, fmap_cons, IH. done.
Qed.

Lemma threaded_Ok x ps acts y :
  threaded x ps acts (Ok (Some y)) →
  length acts = length ps ∧
  (∀ p fn args kwargs, PreSubmit p fn args kwargs None ∉ acts) ∧
  match last (hook_calls acts) with
  | Some c => c.2 = Some y
  | None => x = y
  end.
Proof.
  remember (Ok (Some y)) as r eqn:Hr.
  induction 1 as [| | p ps fn args kwargs z acts r Hth IH |]; simplify_eq.
  - split_and!; [done | intros; apply not_elem_of_nil | done].
  - destruct (IH eq_refl) as (Hlen & Hveto & Hlast). split_and!.
    + simpl. by rewrite Hlen.
    + intros p' fn' args' kwargs' [?|?]%elem_of_cons; [done | by eapply Hveto].
    + rewrite hook_calls_PreSubmit.
      destruct (hook_calls acts) as [|c cs] eqn:Hcs; simpl in *; [by subst |].
      destruct (last (c :: cs)) eqn:Hl; [done |]. by apply last_None in Hl.
Qed.

Lemma threaded_veto_last x ps acts r p fn args kwargs :
  threaded x ps acts r →
  PreSubmit p fn args kwargs None ∈ acts →
  r = Ok None ∧
  ∃ acts', acts = acts' ++ [PreSubmit p fn args kwargs None] ∧
           ps !! length acts' = Some p ∧
           ∀ p' fn' args' kwargs', PreSubmit p' fn' args' kwargs' None ∉ acts'.
Proof.
  induction 1 as [| q ps fn0 args0 kwargs0 | q ps fn0 args0 kwargs0 y acts r Hth IH |];
    intros Hin.
  - by apply elem_of_nil in Hin.
  - apply list_elem_of_singleton in Hin. simplify_eq. split; [done |].
    exists []. split_and!; [done | done | intros; apply not_elem_of_nil].
  - apply elem_of_cons in Hin as [? | Hin]; [done |].
    destruct (IH Hin) as (-> & acts' & -> & Hp & Hno). split; [done |].
    exists (PreSubmit q fn0 args0 kwargs0 (Some y) :: acts'). split_and!; [done | done |].
    intros p' fn' args' kwargs' [?|?]%elem_of_cons; [done | by eapply Hno].
  - by apply elem_of_nil in Hin.
Qed.

Lemma threaded_first x ps acts r c :
  threaded x ps acts r → hook_calls acts !! 0 = Some c → c.1.2 = x.
Proof. destruct 1; simpl; intros; by simplify_eq. Qed.


(** ** The three ways a submission ends *)

Ltac explicit_elem :=
  repeat match goal with
         | Hm : _ ∈ finalizer_actions _ _ ?st _ |- _ =>
             unfold finalizer_actions in Hm; destruct st
         | Hm : _ ∈ accept_actions _ _ _ _ _ |- _ => unfold accept_actions in Hm
         | Hm : _ ∈ _ ++ _ |- _ => apply elem_of_app in Hm as [Hm | Hm]
         | Hm : _ ∈ _ :: _ |- _ => apply elem_of_cons in Hm as [Hm | Hm]
         | Hm : _ ∈ [] |- _ => by apply elem_of_nil in Hm
         | Hm : ?a ∈ ?l, Hall : Forall is_PreSubmit ?l |- _ =>
             apply (proj1 (Forall_forall _ _) Hall) in Hm; simpl in Hm
         end; simplify_eq; try done.

Lemma call_vetoed args kwargs t e r t' e' p fn a k :
  __call__ args kwargs (t, e) = (r, (t', e')) →
  PreSubmit p fn a k None ∈ new_actions e e' →
  r = Ok None ∧ t' = t ∧ futures e' = futures e ∧
  threaded (function t, args, kwargs) (plugins t) (new_actions e e') (Ok None).
Proof.
  intros Hcall Hin.
  apply call_spec in Hcall as (acts & r0 & Hth & _ & _ & Hcase).
  destruct r0 as [[[[fn1 a1] k1]|]|err].
  - pose proof (threaded_Ok _ _ _ _ Hth) as (_ & Hno & _).
    pose proof (threaded_PreSubmit _ _ _ _ Hth) as Hall.
    destruct ((backend_submit (scheduler t) (backend e) fn1 a1 k1).2) as [st|].
    + destruct Hcase as (_ & fin & Htr & Hfin).
      rewrite (new_actions_app _ _ _ Htr) in Hin.
      apply elem_of_app in Hin as [Hin | Hin]; [by apply Hno in Hin |].
      destruct (future_done st); [destruct Hfin as (q & _ & _ & -> & _) |
                                  destruct Hfin as (-> & _)];
        explicit_elem.
    + destruct Hcase as (_ & _ & _ & Htr).
      rewrite (new_actions_app _ _ _ Htr) in Hin.
      apply elem_of_app in Hin as [Hin | Hin]; [by apply Hno in Hin |].
      explicit_elem.
  - destruct Hcase as (-> & -> & Hf & Htr).
    by rewrite (new_actions_app _ _ _ Htr).
  - destruct Hcase as (-> & -> & Hf & Htr).
    rewrite (new_actions_app _ _ _ Htr) in Hin.
    destruct (threaded_veto_last _ _ _ _ _ _ _ _ Hth Hin) as [? _]. done.
Qed.

Lemma call_rejected args kwargs t e r t' e' s fn a k :
  __call__ args kwargs (t, e) = (r, (t', e')) →
  SchedulerSubmit s fn a k None ∈ new_actions e e' →
  r = Ok None ∧ t' = t ∧ futures e' = futures e ∧ s = scheduler t ∧
  ∃ acts, threaded (function t, args, kwargs) (plugins t) acts (Ok (Some (fn, a, k))) ∧
          new_actions e e' = acts ++ [SchedulerSubmit s fn a k None].
Proof.
  intros Hcall Hin.
  apply call_spec in Hcall as (acts & r0 & Hth & _ & _ & Hcase).
  pose proof (threaded_PreSubmit _ _ _ _ Hth) as Hall.
  destruct r0 as [[[[fn1 a1] k1]|]|err].
  - destruct ((backend_submit (scheduler t) (backend e) fn1 a1 k1).2) as [st|].
    + destruct Hcase as (_ & fin & Htr & Hfin).
      rewrite (new_actions_app _ _ _ Htr) in Hin.
      destruct (future_done st); [destruct Hfin as (q & _ & _ & -> & _) |
                                  destruct Hfin as (-> & _)];
        explicit_elem.
    + destruct Hcase as (-> & -> & Hf & Htr).
      rewrite (new_actions_app _ _ _ Htr) in *.
      explicit_elem. split_and!; try done. by exists acts.
  - destruct Hcase as (_ & _ & _ & Htr).
    rewrite (new_actions_app _ _ _ Htr) in Hin. explicit_elem.
  - destruct Hcase as (_ & _ & _ & Htr).
    rewrite (new_actions_app _ _ _ Htr) in Hin. explicit_elem.
Qed.


Lemma new_actions_refl e : new_actions e e = [].
Proof. unfold new_actions. by rewrite drop_all. Qed.

Lemma PreSubmit_only_no_Emit acts m ev h pl q :
  Forall is_PreSubmit acts → Emit m ev h pl q ∉ acts.
Proof. intros Hall Hin. explicit_elem. Qed.

Lemma PreSubmit_only_no_dispatch acts :
  Forall is_PreSubmit acts → dispatches acts = [].
Proof.
  induction 1 as [|a acts Ha _ IH]; [done |].
  destruct a; done.
Qed.

(** * The finalizer *)

(** C4: [_process_future] takes the first occurrence of the future out of
    the queue, once; when the future is not in the queue it raises
    [ValueError] and changes nothing: the task and the environment are as
    before, so no event is emitted. *)
Theorem finalizer_removes_once_or_raises h t e r t' e' :
  _process_future h (t, e) = (r, (t', e')) →
  (h ∈ queue t →
     (∃ l1 l2, queue t = l1 ++ h :: l2 ∧ (h ∉ l1) ∧ queue t' = l1 ++ l2) ∧
     ∃ emitted, new_actions e e' = QueueRemove h :: emitted ∧
                Forall is_Emit emitted) ∧
  (h ∉ queue t →
     r = Raise (ValueError h (queue t)) ∧ t' = t ∧ e' = e ∧
     new_actions e e' = []).
Proof.
  intros Hpf. split.
  - intros Hin. destruct (list_remove_is_Some _ _ Hin) as [q Hq].
    destruct (futures e !! h) as [fo|] eqn:Hfo.
    + destruct (process_future_present h t e q fo Hq Hfo)
        as (e1 & Heq & _ & _ & _ & _ & Htr).
      rewrite Heq in Hpf. simplify_eq. split.
      * apply list_remove_Some in Hq as (l1 & l2 & ? & ? & ?). by exists l1, l2.
      * rewrite (new_actions_app _ _ _ Htr). unfold finalizer_actions.
        eexists. split; [done |]. destruct (fstate fo); repeat constructor.
    + rewrite (process_future_dangling h t e q Hq Hfo) in Hpf. simplify_eq. split.
      * apply list_remove_Some in Hq as (l1 & l2 & ? & ? & ?). by exists l1, l2.
      * exists []. split; [| constructor].
        apply new_actions_app. done.
  - intros Hn. apply list_remove_None in Hn.
    rewrite (process_future_absent h t e Hn) in Hpf. simplify_eq.
    split_and!; try done. apply new_actions_refl.
Qed.

(** * Submission *)

(** C2: when the hook of some plugin returns the veto, [submit] returns
    [None]; the veto is the last operation of the call, every operation
    before it is a hook call on the plugins that precede the vetoing one in
    the attachment order, so the backend is not called, nothing is
    emitted, and the plugins after it are not consulted; the task, hence its
    queue, and the futures are as before. *)
Theorem veto_aborts_submission args kwargs t e r t' e' p fn a k :
  submit args kwargs (t, e) = (r, (t', e')) →
  PreSubmit p fn a k None ∈ new_actions e e' →
  r = Ok None ∧
  (∀ s fn' a' k' o, SchedulerSubmit s fn' a' k' o ∉ new_actions e e') ∧
  (∀ m ev h pl q, Emit m ev h pl q ∉ new_actions e e') ∧
  t' = t ∧ length (queue t') = length (queue t) ∧
  futures e' = futures e ∧
  ∃ before,
    new_actions e e' = before ++ [PreSubmit p fn a k None] ∧
    plugins t !! length before = Some p ∧
    consulted (new_actions e e') = take (Datatypes.S (length before)) (plugins t).
Proof.
  unfold submit. intros Hcall Hin.
  destruct (call_vetoed _ _ _ _ _ _ _ _ _ _ _ Hcall Hin) as (-> & -> & Hf & Hth).
  pose proof (threaded_PreSubmit _ _ _ _ Hth) as Hall.
  destruct (threaded_veto_last _ _ _ _ _ _ _ _ Hth Hin) as (_ & before & Hnew & Hp & _).
  split_and!; try done.
  - intros s fn' a' k' o Hm. explicit_elem.
  - intros. by apply PreSubmit_only_no_Emit.
  - exists before. split_and!; try done.
    rewrite (threaded_consulted _ _ _ _ Hth), Hnew, length_app. simpl.
    f_equal. lia.
Qed.

(** C5: when no plugin vetoes and the backend answers the call with a
    rejection, [submit] returns [None]; nothing is emitted, nothing is
    appended to the queue and no completion hook is registered: the task
    and the futures are as before. *)
Theorem backend_rejection_returns_None args kwargs t e r t' e' s fn a k :
  submit args kwargs (t, e) = (r, (t', e')) →
  SchedulerSubmit s fn a k None ∈ new_actions e e' →
  r = Ok None ∧
  (∀ p fn' a' k', PreSubmit p fn' a' k' None ∉ new_actions e e') ∧
  (∀ m ev h pl q, Emit m ev h pl q ∉ new_actions e e') ∧
  (∀ h, QueueAppend h ∉ new_actions e e') ∧
  (∀ h, AddDoneCallback h ∉ new_actions e e') ∧
  t' = t ∧ queue t' = queue t ∧
  futures e' = futures e.
Proof.
  unfold submit. intros Hcall Hin.
  destruct (call_rejected _ _ _ _ _ _ _ _ _ _ _ Hcall Hin)
    as (-> & -> & Hf & -> & acts & Hth & Hnew).
  pose proof (threaded_PreSubmit _ _ _ _ Hth) as Hall.
  pose proof (threaded_Ok _ _ _ _ Hth) as (_ & Hno & _).
  rewrite Hnew. split_and!; try done.
  - intros p fn' a' k' [Hm | Hm]%elem_of_app; [by apply Hno in Hm | explicit_elem].
  - intros m ev h pl q Hm. explicit_elem.
  - intros h Hm. explicit_elem.
  - intros h Hm. explicit_elem.
Qed.






(** ** The plugin chain of a submission *)



Lemma hook_calls_finalizer t h st q : hook_calls (finalizer_actions t h st q) = [].
Proof. by destruct st. Qed.

Lemma dispatches_finalizer t h st q : dispatches (finalizer_actions t h st q) = [].
Proof. by destruct st. Qed.

Lemma call_reading args kwargs t e r t' e' :
  __call__ args kwargs (t, e) = (r, (t', e')) →
  ∃ acts r0,
    threaded (function t, args, kwargs) (plugins t) acts r0 ∧
    hook_calls (new_actions e e') = hook_calls acts ∧
    dispatches (new_actions e e') =
      match r0 with
      | Ok (Some y) => [(scheduler t, y)]
      | _ => []
      end.
Proof.
  intros Hcall.
  apply call_spec in Hcall as (acts & r0 & Hth & _ & _ & Hcase).
  pose proof (PreSubmit_only_no_dispatch _ (threaded_PreSubmit _ _ _ _ Hth)) as Hd.
  exists acts, r0. split; [done |].
  destruct r0 as [[[[fn a] k]|]|err].
  - destruct ((backend_submit (scheduler t) (backend e) fn a k).2) as [st|].
    + destruct Hcase as (_ & fin & Htr & Hfin).
      rewrite (new_actions_app _ _ _ Htr).
      rewrite !hook_calls_app, !dispatches_app, Hd.
      destruct (future_done st); [destruct Hfin as (q & _ & _ & -> & _) |
                                  destruct Hfin as (-> & _)].
      * rewrite hook_calls_finalizer, dispatches_finalizer. simpl.
        by rewrite app_nil_r.
      * simpl. by rewrite app_nil_r.
    + destruct Hcase as (_ & _ & _ & Htr).
      rewrite (new_actions_app _ _ _ Htr).
      rewrite !hook_calls_app, !dispatches_app, Hd. simpl.
      by rewrite app_nil_r.
  - destruct Hcase as (_ & _ & _ & Htr). by rewrite (new_actions_app _ _ _ Htr).
  - destruct Hcase as (_ & _ & _ & Htr). by rewrite (new_actions_app _ _ _ Htr).
Qed.


(** ** What a submission leaves alone *)

Lemma with_queue_id t : with_queue (queue t) t = t.
Proof. by destruct t. Qed.

Lemma call_task args kwargs t e r t' e' :
  __call__ args kwargs (t, e) = (r, (t', e')) → ∃ q, t' = with_queue q t.
Proof.
  intros Hcall.
  apply call_spec in Hcall as (acts & r0 & _ & _ & _ & Hcase).
  destruct r0 as [[[[fn a] k]|]|err].
  - destruct ((backend_submit (scheduler t) (backend e) fn a k).2) as [st|].
    + destruct Hcase as (_ & fin & _ & Hfin).
      destruct (future_done st); [destruct Hfin as (q & _ & -> & _) |
                                  destruct Hfin as (_ & -> & _)]; by eexists.
    + destruct Hcase as (_ & -> & _). exists (queue t). by rewrite with_queue_id.
  - destruct Hcase as (_ & -> & _). exists (queue t). by rewrite with_queue_id.
  - destruct Hcase as (_ & -> & _). exists (queue t). by rewrite with_queue_id.
Qed.

Lemma call_history args kwargs t e r t' e' :
  __call__ args kwargs (t, e) = (r, (t', e')) →
  trace e' = trace e ++ new_actions e e'.
Proof.
  intros Hcall.
  apply call_spec in Hcall as (acts & r0 & _ & _ & _ & Hcase).
  destruct r0 as [[[[fn a] k]|]|err].
  - destruct ((backend_submit (scheduler t) (backend e) fn a k).2) as [st|].
    + destruct Hcase as (_ & fin & Htr & _).
      by rewrite (new_actions_app _ _ _ Htr).
    + destruct Hcase as (_ & _ & _ & Htr). by rewrite (new_actions_app _ _ _ Htr).
  - destruct Hcase as (_ & _ & _ & Htr). by rewrite (new_actions_app _ _ _ Htr).
  - destruct Hcase as (_ & _ & _ & Htr). by rewrite (new_actions_app _ _ _ Htr).
Qed.

Lemma call_futures args kwargs t e r t' e' h fo :
  __call__ args kwargs (t, e) = (r, (t', e')) →
  futures e !! h = Some fo → futures e' !! h = Some fo.
Proof.
  intros Hcall Hh.
  assert (h ≠ fresh (dom (futures e))) as Hne.
  { intros ->. apply (is_fresh (dom (futures e))). apply elem_of_dom. eauto. }
  apply call_spec in Hcall as (acts & r0 & _ & _ & _ & Hcase).
  destruct r0 as [[[[fn a] k]|]|err].
  - destruct ((backend_submit (scheduler t) (backend e) fn a k).2) as [st|].
    + destruct Hcase as (_ & fin & _ & Hfin).
      destruct (future_done st); [destruct Hfin as (q & _ & _ & _ & ->) |
                                  destruct Hfin as (_ & _ & ->)];
        by rewrite lookup_insert_ne.
    + destruct Hcase as (_ & _ & -> & _). done.
  - destruct Hcase as (_ & _ & -> & _). done.
  - destruct Hcase as (_ & _ & -> & _). done.
Qed.

Lemma call_queue args kwargs t e r t' e' h :
  __call__ args kwargs (t, e) = (r, (t', e')) →
  h ∈ queue t → h ∈ queue t'.
Proof.
  intros Hcall Hh.
  apply call_spec in Hcall as (acts & r0 & _ & _ & _ & Hcase).
  destruct r0 as [[[[fn a] k]|]|err].
  - destruct ((backend_submit (scheduler t) (backend e) fn a k).2) as [st|].
    + destruct Hcase as (_ & fin & _ & Hfin).
      destruct (future_done st); [destruct Hfin as (q & Hq & -> & _) |
                                  destruct Hfin as (_ & -> & _)]; simpl.
      * by eapply list_remove_keeps.
      * apply elem_of_app. by left.
    + by destruct Hcase as (_ & -> & _).
  - by destruct Hcase as (_ & -> & _).
  - by destruct Hcase as (_ & -> & _).
Qed.

(** C9: what the hooks make of the function and the arguments lives in the
    call: after [submit] the task holds the function it held before, the
    futures handed out earlier are the objects they were and those in the
    queue are still in it, and the history so far is not rewritten. In the
    next call the first hook is again given the function of the task, and
    without plugins so is the backend. *)
Theorem rewrite_is_per_submission args kwargs t e r t' e' :
  submit args kwargs (t, e) = (r, (t', e')) →
  function t' = function t ∧
  (∀ h fo, futures e !! h = Some fo → futures e' !! h = Some fo) ∧
  (∀ h, h ∈ queue t → h ∈ queue t') ∧
  trace e `prefix_of` trace e' ∧
  ∀ args2 kwargs2 r2 t'' e'',
    submit args2 kwargs2 (t', e') = (r2, (t'', e'')) →
    function t'' = function t ∧
    (∀ c, hook_calls (new_actions e' e'') !! 0 = Some c →
          c.1.2 = (function t, args2, kwargs2)) ∧
    (plugins t = [] →
     ∀ d, d ∈ dispatches (new_actions e' e'') →
          d = (scheduler t, (function t, args2, kwargs2))).
Proof.
  unfold submit. intros Hcall.
  destruct (call_task _ _ _ _ _ _ _ Hcall) as [q ->].
  split_and!.
  - done.
  - intros h fo. by eapply call_futures.
  - intros h. by eapply call_queue.
  - exists (new_actions e e'). by eapply call_history.
  - intros args2 kwargs2 r2 t'' e'' Hcall2.
    destruct (call_task _ _ _ _ _ _ _ Hcall2) as [q2 ->].
    destruct (call_reading _ _ _ _ _ _ _ Hcall2) as (acts & r0 & Hth & Hhooks & Hdisp).
    simpl in Hth. rewrite Hhooks, Hdisp. split_and!.
    + done.
    + intros c. by eapply threaded_first.
    + intros Hnil d Hd. rewrite Hnil in Hth. inversion Hth; subst.
      by apply list_elem_of_singleton in Hd.
Qed.

(** * The life of a future *)

(** ** Reading events off the pieces of a trace *)

Lemma quiet_facts X :
  Forall is_quiet X →
  (∀ h, events_of h X = []) ∧ (∀ h, QueueRemove h ∉ X) ∧
  (∀ m ev h pl q, Emit m ev h pl q ∉ X).
Proof.
  intros Hq. split_and!.
  - intros h. induction Hq as [|a X Ha _ IH]; [done |]. destruct a; done.
  - intros h Hin. apply (proj1 (Forall_forall _ _) Hq) in Hin. done.
  - intros m ev h pl q Hin. apply (proj1 (Forall_forall _ _) Hq) in Hin. done.
Qed.

Lemma PreSubmit_quiet acts : Forall is_PreSubmit acts → Forall is_quiet acts.
Proof. intros Hall. eapply Forall_impl; [exact Hall |]. by intros []. Qed.

Lemma events_of_accept t fn a k h' h :
  subscribers_ok t →
  events_of h (accept_actions t fn a k h') = if decide (h' = h) then [SUBMITTED] else [].
Proof.
  unfold accept_actions. intros (-> & _). unfold events_of. simpl. by case_decide.
Qed.

Lemma events_of_finalizer t h' st q h :
  subscribers_ok t →
  events_of h (finalizer_actions t h' st q) =
    if decide (h' = h) then final_events st else [].
Proof.
  unfold finalizer_actions. intros (_ & -> & -> & -> & ->). unfold events_of.
  destruct st; simpl; by case_decide.
Qed.

Lemma QueueRemove_accept t fn a k h' h : QueueRemove h ∉ accept_actions t fn a k h'.
Proof. intros Hin. explicit_elem. Qed.

Lemma QueueRemove_finalizer t h' st q h :
  QueueRemove h ∈ finalizer_actions t h' st q ↔ h = h'.
Proof.
  split.
  - intros Hin. explicit_elem.
  - intros ->. left.
Qed.

Lemma Emit_accept t fn a k h m ev h' pl q :
  subscribers_ok t →
  Emit m ev h' pl q ∈ accept_actions t fn a k h → ev = SUBMITTED.
Proof. unfold accept_actions. intros (-> & _) Hin. explicit_elem. Qed.

Lemma observed_ok_app_quiet tr X :
  observed_ok tr →
  (∀ m ev h pl q, Emit m ev h pl q ∈ X → ev = SUBMITTED) →
  observed_ok (tr ++ X).
Proof.
  intros Hok Hq i m ev h pl q Hi Hev.
  apply lookup_app_Some in Hi as [Hi | [_ Hi]].
  - destruct (Hok _ _ _ _ _ _ Hi Hev) as (Hn & j & Hj & Hjj).
    split; [done |]. exists j. split; [done |]. by apply lookup_app_l_Some.
  - apply list_elem_of_lookup_2, Hq in Hi. done.
Qed.

Lemma observed_ok_app_finalizer tr t h st q :
  observed_ok tr → h ∉ q → observed_ok (tr ++ finalizer_actions t h st q).
Proof.
  intros Hok Hn i m ev h' pl q' Hi Hev.
  apply lookup_app_Some in Hi as [Hi | [Hle Hi]].
  - destruct (Hok _ _ _ _ _ _ Hi Hev) as (Hn' & j & Hj & Hjj).
    split; [done |]. exists j. split; [done |]. by apply lookup_app_l_Some.
  - unfold finalizer_actions in Hi.
    destruct (i - length tr) as [|j] eqn:Hj; simpl in Hi; [done |].
    assert (h' = h ∧ q' = q) as [-> ->].
    { apply list_elem_of_lookup_2 in Hi. destruct st; explicit_elem. }
    split; [done |]. exists (length tr). split; [lia |].
    rewrite lookup_app_r by lia. by rewrite Nat.sub_diag.
Qed.

(** ** The invariant of a task between two stimuli *)

Lemma consistent_quiet t e e' X :
  consistent t e →
  futures e' = futures e →
  trace e' = trace e ++ X →
  Forall is_quiet X →
  consistent t e'.
Proof.
  intros (Hs & Hnd & Hh & Ho) Hf Htr HX.
  destruct (quiet_facts _ HX) as (Hev & Hqr & Hem).
  split_and!; [done | done | |].
  - intros h. specialize (Hh h). unfold history_ok in *.
    rewrite Hf, Htr, events_of_app, Hev, app_nil_r.
    destruct (futures e !! h) as [fo|]; [destruct (future_done (fstate fo)) |].
    + destruct Hh as (? & ? & ?). split_and!; try done. apply elem_of_app. by left.
    + destruct Hh as (? & ? & ? & ?). split_and!; try done.
      intros [?|?]%elem_of_app; [done | by eapply Hqr].
    + destruct Hh as (? & ? & ?). split_and!; try done.
      intros [?|?]%elem_of_app; [done | by eapply Hqr].
  - rewrite Htr. apply observed_ok_app_quiet; [done |].
    intros m ev h pl q Hin. by apply Hem in Hin.
Qed.

Lemma consistent_accept_pending t e e' h fn a k X :
  consistent t e →
  futures e !! h = None →
  Forall is_quiet X →
  trace e' = trace e ++ X ++ accept_actions t fn a k h →
  futures e' = <[h := mkFuture FPending [unique_ref t]]> (futures e) →
  consistent (with_queue (queue t ++ [h]) t) e'.
Proof.
  intros (Hs & Hnd & Hh & Ho) Hnone HX Htr Hf.
  destruct (quiet_facts _ HX) as (Hev & Hqr & Hem).
  pose proof (Hh h) as Hhh. unfold history_ok in Hhh. rewrite Hnone in Hhh.
  destruct Hhh as (Hnq & Hevh & Hqrh).
  split_and!.
  - exact Hs.
  - simpl. apply NoDup_app. split_and!; [done | | apply NoDup_singleton].
    intros x Hx ->%list_elem_of_singleton. done.
  - intros h'. unfold history_ok. simpl.
    rewrite Hf, Htr, !events_of_app, Hev, (events_of_accept _ _ _ _ _ _ Hs). simpl.
    destruct (decide (h = h')) as [<- | Hne].
    + rewrite lookup_insert_eq. simpl. rewrite Hevh. split_and!; try done.
      * apply elem_of_app. right. left.
      * intros [?|[?|?]%elem_of_app]%elem_of_app;
          [done | by eapply Hqr | by eapply QueueRemove_accept].
    + rewrite lookup_insert_ne by done. rewrite app_nil_r.
      specialize (Hh h'). unfold history_ok in Hh.
      assert (h' ∈ queue t ++ [h] ↔ h' ∈ queue t) as Hq.
      { rewrite elem_of_app, list_elem_of_singleton. naive_solver. }
      assert (QueueRemove h' ∈ trace e ++ X ++ accept_actions t fn a k h ↔
              QueueRemove h' ∈ trace e) as Hr.
      { rewrite !elem_of_app. split; [| by left].
        intros [Hm|[Hm|Hm]]; [done | by apply Hqr in Hm | by apply QueueRemove_accept in Hm]. }
      destruct (futures e !! h') as [fo|]; [destruct (future_done (fstate fo)) |];
        rewrite Hq, Hr; done.
  - rewrite Htr. apply observed_ok_app_quiet; [done |].
    intros m ev h' pl q [Hin | Hin]%elem_of_app; [by apply Hem in Hin |].
    by eapply Emit_accept.
Qed.

Lemma consistent_finalize t e e' h st q :
  consistent t e →
  list_remove h (queue t) = Some q →
  future_done st = true →
  trace e' = trace e ++ finalizer_actions t h st q →
  futures e' = <[h := mkFuture st []]> (futures e) →
  consistent (with_queue q t) e'.
Proof.
  intros (Hs & Hnd & Hh & Ho) Hq Hdone Htr Hf.
  destruct (list_remove_NoDup _ _ _ Hnd Hq) as [Hndq Hnq].
  pose proof (list_remove_elem_of _ _ _ Hq) as Hin.
  split_and!.
  - exact Hs.
  - done.
  - intros h'. unfold history_ok. simpl.
    rewrite Hf, Htr, events_of_app, (events_of_finalizer _ _ _ _ _ Hs).
    destruct (decide (h = h')) as [<- | Hne].
    + rewrite lookup_insert_eq. simpl. rewrite Hdone.
      specialize (Hh h). unfold history_ok in Hh.
      destruct (futures e !! h) as [fo|]; [destruct (future_done (fstate fo)) |];
        try (by destruct Hh as (? & _)).
      destruct Hh as (_ & _ & -> & _). split_and!; try done.
      apply elem_of_app. right. left.
    + rewrite lookup_insert_ne by done. rewrite app_nil_r.
      specialize (Hh h'). unfold history_ok in Hh.
      assert (h' ∈ q ↔ h' ∈ queue t) as Hq'.
      { apply (list_remove_other _ _ _ _ Hq). done. }
      assert (QueueRemove h' ∈ trace e ++ finalizer_actions t h st q ↔
              QueueRemove h' ∈ trace e) as Hr.
      { rewrite elem_of_app, QueueRemove_finalizer. naive_solver. }
      destruct (futures e !! h') as [fo|]; [destruct (future_done (fstate fo)) |];
        rewrite Hq', Hr; done.
  - rewrite Htr. by apply observed_ok_app_finalizer.
Qed.

Lemma call_consistent args kwargs t e r t' e' :
  consistent t e →
  __call__ args kwargs (t, e) = (r, (t', e')) →
  consistent t' e'.
Proof.
  intros Hc Hcall.
  apply call_spec in Hcall as (acts & r0 & Hth & _ & _ & Hcase).
  pose proof (PreSubmit_quiet _ (threaded_PreSubmit _ _ _ _ Hth)) as Hquiet.
  destruct r0 as [[[[fn a] k]|]|err].
  - destruct ((backend_submit (scheduler t) (backend e) fn a k).2) as [st|].
    + destruct Hcase as (_ & fin & Htr & Hfin).
      set (h := fresh (dom (futures e))) in *.
      assert (futures e !! h = None) as Hnone.
      { apply not_elem_of_dom. apply is_fresh. }
      destruct (future_done st) eqn:Hdone.
      * destruct Hfin as (q & Hq & -> & -> & Hf).
        set (e1 := mkEnv (plugin_heap e)
                         (<[h := mkFuture FPending [unique_ref t]]> (futures e))
                         (backend e) (uuid_supply e)
                         (trace e ++ acts ++ accept_actions t fn a k h)).
        assert (consistent (with_queue (queue t ++ [h]) t) e1) as Hc1.
        { by eapply (consistent_accept_pending t e e1 h fn a k acts). }
        apply (consistent_finalize _ e1 e' h st q Hc1); try done.
        -- simpl. rewrite Htr. by rewrite <- !app_assoc.
        -- simpl. by rewrite insert_insert_eq.
      * destruct Hfin as (-> & -> & Hf). destruct st; try done.
        rewrite app_nil_r in Htr.
        by eapply (consistent_accept_pending t e e' h fn a k acts).
    + destruct Hcase as (_ & -> & Hf & Htr).
      eapply consistent_quiet; [done | done | exact Htr |].
      apply Forall_app. split; [done | by repeat constructor].
  - destruct Hcase as (_ & -> & Hf & Htr). by eapply consistent_quiet.
  - destruct Hcase as (_ & -> & Hf & Htr). by eapply consistent_quiet.
Qed.

Lemma complete_consistent h out t e r t' e' :
  consistent t e →
  complete h out (t, e) = (r, (t', e')) →
  consistent t' e'.
Proof.
  intros Hc Hcomp. unfold complete, get_future in Hcomp. unfold_se. simpl in Hcomp.
  destruct (futures e !! h) as [fo|] eqn:Hfo; [| by simplify_eq].
  destruct (future_done (fstate fo) || negb (future_done out)) eqn:Hb;
    [by simplify_eq |].
  apply orb_false_elim in Hb as [Hpend Hout]. apply negb_false_iff in Hout.
  pose proof Hc as (_ & _ & Hh & _). specialize (Hh h). unfold history_ok in Hh.
  rewrite Hfo, Hpend in Hh. destruct Hh as (Hin & Hcb & _).
  rewrite Hcb in Hcomp. simpl in Hcomp. unfold_se.
  rewrite decide_True in Hcomp by done.
  destruct (list_remove_is_Some _ _ Hin) as [q Hq].
  match type of Hcomp with
  | context [_process_future h (t, ?e1)] =>
      destruct (process_future_present h t e1 q (mkFuture out []) Hq)
        as (e2 & Hpf & _ & Hf2 & _ & _ & Htr2);
        [by (simpl; rewrite lookup_insert_eq) |]
  end.
  rewrite Hpf in Hcomp. simpl in *.
  destruct out; try done; simpl in Hcomp; simplify_eq;
    by eapply (consistent_finalize t e).
Qed.

Lemma step_consistent s st :
  consistent st.1 st.2 → consistent (step s st).1 (step s st).2.
Proof.
  destruct st as [t e]. intros Hc. destruct s as [args kwargs | h out]; simpl.
  - unfold submit. destruct (__call__ args kwargs (t, e)) as [r [t' e']] eqn:Hcall.
    by eapply call_consistent.
  - destruct (complete h out (t, e)) as [r [t' e']] eqn:Hcomp.
    by eapply complete_consistent.
Qed.

Lemma run_consistent ss st :
  consistent st.1 st.2 → consistent (run ss st).1 (run ss st).2.
Proof.
  revert st. induction ss as [|s ss IH]; intros st Hc; [done |].
  simpl. apply IH. by apply step_consistent.
Qed.

(** ** Construction yields a consistent task *)

Lemma attach_all_frame ps t e r e' :
  attach_all ps t e = (r, e') →
  futures e' = futures e ∧ trace e' = trace e ∧ backend e' = backend e ∧
  uuid_supply e' = uuid_supply e.
Proof.
  revert e. induction ps as [|p ps IH]; intros e Hrun; simpl in Hrun.
  - unfold_se. by simplify_eq.
  - unfold bind, attach_task in Hrun.
    destruct (plugin_heap e !! p); [| by simplify_eq].
    by apply IH in Hrun.
Qed.

Lemma init_frame fn s nm ps ip e r e' :
  __init__ fn s nm ps ip e = (r, e') →
  futures e' = futures e ∧ trace e' = trace e ∧ backend e' = backend e ∧
  uuid_supply e' = Datatypes.S (uuid_supply e) ∧
  ∀ t, r = Ok t →
       subscribers_ok t ∧ queue t = [] ∧ function t = fn ∧ scheduler t = s ∧
       plugins t = ps ∧ init_plugins t = ip ∧
       name t = match nm with Some n => n | None => funcname fn end ∧
       uuid t = uuid_supply e ∧
       unique_ref t = mkUniqueRef (name t) (uuid_supply e).
Proof.
  unfold __init__, uuid4. unfold bind at 1. simpl.
  destruct ip.
  - unfold bind. match goal with |- context [attach_all ps ?t ?e1] =>
      destruct (attach_all ps t e1) as [r1 e2] eqn:Hatt end.
    apply attach_all_frame in Hatt as (? & ? & ? & ?). simpl in *.
    destruct r1; unfold_se; intros; simplify_eq; split_and!; try done;
      intros; simplify_eq; by repeat split.
  - unfold_se. intros. simplify_eq. split_and!; try done.
    intros; simplify_eq; by repeat split.
Qed.

Lemma init_consistent fn s nm ps ip e t e' :
  futures e = ∅ → trace e = [] →
  __init__ fn s nm ps ip e = (Ok t, e') →
  consistent t e'.
Proof.
  intros Hf Htr Hinit.
  apply init_frame in Hinit as (Hf' & Htr' & _ & _ & Ht).
  destruct (Ht t eq_refl) as (Hs & Hq & _).
  split_and!; [done | rewrite Hq; constructor | |].
  - intros h. unfold history_ok. rewrite Hf', Hf, lookup_empty, Htr', Htr, Hq.
    split_and!; [apply not_elem_of_nil | done | apply not_elem_of_nil].
  - intros i m ev h pl q Hi. by rewrite Htr', Htr in Hi.
Qed.

(** ** Lifecycles *)



(** C10: in any such history, every emission of [cancelled], [done],
    [exception] or [returned] for a future comes after the removal of that
    future from the queue, and the queue a subscriber finds during the
    emission does not hold the future, so that the futures [n_running]
    counts on it do not include it. *)
Theorem finalized_future_left_queue_before_events
    fn s nm ps ip e0 t0 e1 ss i m ev h pl q :
  futures e0 = ∅ → trace e0 = [] →
  __init__ fn s nm ps ip e0 = (Ok t0, e1) →
  trace (run ss (t0, e1)).2 !! i = Some (Emit m ev h pl q) →
  ev ∈ [CANCELLED; DONE; EXCEPTION; RETURNED] →
  (∃ j, j < i ∧ trace (run ss (t0, e1)).2 !! j = Some (QueueRemove h)) ∧
  (h ∉ q) ∧
  ∀ t e, queue t = q → (h ∉ not_done e (queue t)) ∧
                      n_running t e = length (not_done e q).
Proof.
  intros Hf Htr Hinit Hi Hev.
  pose proof (init_consistent _ _ _ _ _ _ _ _ Hf Htr Hinit) as Hc.
  apply (run_consistent ss (t0, e1)) in Hc as (_ & _ & _ & Ho).
  assert (ev ≠ SUBMITTED) as Hne.
  { intros ->. revert Hev. rewrite !elem_of_cons, elem_of_nil. naive_solver. }
  destruct (Ho _ _ _ _ _ _ Hi Hne) as (Hnq & j & Hj & Hjj).
  split_and!; [by exists j | done |].
  intros t e <-. split; [| done].
  unfold not_done. rewrite list_elem_of_filter. naive_solver.
Qed.

(** * Copies *)

(** ** The plugin objects of a copy *)

Lemma copy_plugins_spec ps e :
  (∀ p, p ∈ ps → is_Some (plugin_heap e !! p)) →
  ∃ ps' e',
    copy_plugins ps e = (Ok ps', e') ∧
    futures e' = futures e ∧ trace e' = trace e ∧ backend e' = backend e ∧
    uuid_supply e' = uuid_supply e ∧
    length ps' = length ps ∧ NoDup ps' ∧
    (∀ p', p' ∈ ps' → plugin_heap e !! p' = None) ∧
    (∀ p', p' ∈ ps' → is_Some (plugin_heap e' !! p')) ∧
    (∀ p, p ∉ ps' → plugin_heap e' !! p = plugin_heap e !! p) ∧
    (∀ i p p', ps !! i = Some p → ps' !! i = Some p' →
       ∃ st, plugin_heap e !! p = Some st ∧
             plugin_heap e' !! p' = Some (plugin_copy st)).
Proof.
  revert e. induction ps as [|p ps IH]; intros e Halloc; simpl.
  - exists [], e. unfold_se. split_and!; try done.
    all: first [by constructor | intros p' Hp'; by apply elem_of_nil in Hp'].
  - destruct (Halloc p) as [st Hst]; [left |].
    unfold bind at 1. unfold copy_plugin. rewrite Hst.
    set (p0 := fresh (dom (plugin_heap e))).
    assert (plugin_heap e !! p0 = None) as Hp0.
    { apply not_elem_of_dom. apply is_fresh. }
    set (e1 := set_plugin_heap (<[p0 := plugin_copy st]> (plugin_heap e)) e).
    destruct (IH e1) as (rest & e' & Hrun & Hf & Htr & Hb & Hu & Hlen & Hnd & Hnew
                         & Hnew' & Hold & Hidx).
    { intros p1 Hp1. simpl. destruct (decide (p0 = p1)) as [-> | Hne].
      - rewrite lookup_insert_eq. by eexists.
      - rewrite lookup_insert_ne by done. apply Halloc. by right. }
    assert (p0 ∉ rest) as Hp0rest.
    { intros Hin. apply Hnew in Hin. simpl in Hin.
      by rewrite lookup_insert_eq in Hin. }
    exists (p0 :: rest), e'. unfold bind. rewrite Hrun. unfold ret.
    split_and!; try done.
    + simpl. by rewrite Hlen.
    + by constructor.
    + intros p' [-> | Hp']%elem_of_cons; [done |].
      apply Hnew in Hp' as Hn. simpl in Hn.
      destruct (decide (p0 = p')) as [-> | Hne]; [done |].
      by rewrite lookup_insert_ne in Hn.
    + intros p' [-> | Hp']%elem_of_cons; [| by apply Hnew'].
      rewrite (Hold p0 Hp0rest). simpl. rewrite lookup_insert_eq. by eexists.
    + intros p1 Hp1. apply not_elem_of_cons in Hp1 as [Hne Hp1].
      rewrite (Hold p1 Hp1). simpl. by rewrite lookup_insert_ne.
    + intros i p1 p1' Hi Hi'. destruct i as [|i]; simpl in Hi, Hi'.
      * assert (p1 = p) as -> by congruence.
        assert (p1' = p0) as -> by congruence.
        exists st. split; [done |].
        rewrite (Hold p0 Hp0rest). simpl. by rewrite lookup_insert_eq.
      * destruct (Hidx i p1 p1' Hi Hi') as (st1 & Hst1 & Hcp). exists st1.
        split; [| done]. simpl in Hst1.
        assert (p0 ≠ p1) as Hne.
        { intros <-. destruct (Halloc p0) as [? Hs];
            [right; by eapply list_elem_of_lookup_2 | congruence]. }
        by rewrite lookup_insert_ne in Hst1.
Qed.

Lemma attach_all_spec ps t e :
  NoDup ps →
  (∀ p, p ∈ ps → is_Some (plugin_heap e !! p)) →
  ∃ e',
    attach_all ps t e = (Ok tt, e') ∧
    ∀ p, plugin_heap e' !! p =
         if decide (p ∈ ps)
         then (λ st, plugin_attach_task st (unique_ref t)) <$> plugin_heap e !! p
         else plugin_heap e !! p.
Proof.
  revert e. induction ps as [|p ps IH]; intros e Hnd Halloc; simpl.
  - by exists e.
  - apply NoDup_cons in Hnd as [Hp Hnd].
    destruct (Halloc p) as [st Hst]; [left |].
    unfold bind, attach_task. rewrite Hst.
    set (e1 := set_plugin_heap
                 (<[p := plugin_attach_task st (unique_ref t)]> (plugin_heap e)) e).
    destruct (IH e1 Hnd) as (e' & Hrun & Hheap).
    { intros p1 Hp1. simpl. rewrite lookup_insert_ne; [apply Halloc; by right |].
      intros ->. done. }
    exists e'. split; [done |]. intros p1. rewrite Hheap. simpl.
    destruct (decide (p1 = p)) as [-> | Hne].
    + rewrite decide_False by done. rewrite decide_True by left.
      by rewrite lookup_insert_eq, Hst.
    + rewrite lookup_insert_ne by done.
      destruct (decide (p1 ∈ ps)).
      * rewrite decide_True; [done | by right].
      * rewrite decide_False; [done |]. by intros [?|?]%elem_of_cons.
Qed.

Lemma init_heap fn s nm ps ip e :
  NoDup ps →
  (∀ p, p ∈ ps → is_Some (plugin_heap e !! p)) →
  ∃ t e',
    __init__ fn s nm ps ip e = (Ok t, e') ∧
    ∀ p, plugin_heap e' !! p =
         if ip then
           if decide (p ∈ ps)
           then (λ st, plugin_attach_task st (unique_ref t)) <$> plugin_heap e !! p
           else plugin_heap e !! p
         else plugin_heap e !! p.
Proof.
  intros Hnd Halloc. unfold __init__, uuid4. unfold bind. simpl.
  destruct ip; [| by eexists _, _].
  match goal with |- context [attach_all ps ?t ?e1] =>
    destruct (attach_all_spec ps t e1 Hnd) as (e' & Hrun & Hheap); [done |];
      exists t, e' end.
  rewrite Hrun. split; [done |]. exact Hheap.
Qed.

(** ** The namespace of the emissions of a task *)

Lemma emitted_under_app m X Y :
  emitted_under m X → emitted_under m Y → emitted_under m (X ++ Y).
Proof. intros HX HY m' ev h pl q [?|?]%elem_of_app; [by eapply HX | by eapply HY]. Qed.

Lemma emitted_under_nil m : emitted_under m [].
Proof. intros m' ev h pl q Hin. by apply elem_of_nil in Hin. Qed.

Lemma emitted_under_finalizer t h st q :
  subscribers_ok t → emitted_under (unique_ref t) (finalizer_actions t h st q).
Proof.
  unfold finalizer_actions. intros (_ & -> & -> & -> & ->) m ev h' pl q' Hin.
  apply elem_of_cons in Hin as [? | Hin]; [done |]. destruct st; explicit_elem.
Qed.

Lemma emitted_under_accept t fn a k h :
  subscribers_ok t → emitted_under (unique_ref t) (accept_actions t fn a k h).
Proof.
  unfold accept_actions. intros (-> & _) m ev h' pl q' Hin. explicit_elem.
Qed.

Lemma emitted_under_PreSubmit m acts :
  Forall is_PreSubmit acts → emitted_under m acts.
Proof. intros Hall m' ev h pl q Hin. explicit_elem. Qed.

Lemma process_future_emits h t e r t' e' :
  subscribers_ok t →
  _process_future h (t, e) = (r, (t', e')) →
  (∃ q, t' = with_queue q t) ∧
  ∃ X, trace e' = trace e ++ X ∧ emitted_under (unique_ref t) X.
Proof.
  intros Hs Hpf. destruct (list_remove h (queue t)) as [q|] eqn:Hq.
  - destruct (futures e !! h) as [fo|] eqn:Hfo.
    + destruct (process_future_present h t e q fo Hq Hfo)
        as (e1 & Heq & _ & _ & _ & _ & Htr).
      rewrite Heq in Hpf. simplify_eq. split; [by eexists |].
      eexists. split; [done |]. by apply emitted_under_finalizer.
    + rewrite (process_future_dangling h t e q Hq Hfo) in Hpf. simplify_eq.
      split; [by eexists |]. eexists. split; [done |].
      intros m ev h' pl q' Hin. explicit_elem.
  - rewrite (process_future_absent h t e Hq) in Hpf. injection Hpf as <- <- <-.
    split; [exists (queue t); by rewrite with_queue_id |].
    exists []. split; [by rewrite app_nil_r | apply emitted_under_nil].
Qed.

Lemma invoke_callbacks_emits cbs h t e r t' e' :
  subscribers_ok t →
  invoke_callbacks cbs h (t, e) = (r, (t', e')) →
  (∃ q, t' = with_queue q t) ∧
  ∃ X, trace e' = trace e ++ X ∧ emitted_under (unique_ref t) X.
Proof.
  revert t e. induction cbs as [|cb cbs IH]; intros t e Hs Hrun; simpl in Hrun.
  - unfold_se. injection Hrun as <- <- <-.
    split; [exists (queue t); by rewrite with_queue_id |].
    exists []. split; [by rewrite app_nil_r | apply emitted_under_nil].
  - unfold_se. case_decide.
    + destruct (_process_future h (t, e)) as [r1 [t1 e1]] eqn:Hpf.
      destruct (process_future_emits _ _ _ _ _ _ Hs Hpf) as ([q ->] & X & Htr & HX).
      destruct r1; [| injection Hrun as <- <- <-; split; [by eexists | by exists X]].
      apply IH in Hrun as ([q' ->] & Y & Htr' & HY); [| done].
      split; [by eexists |]. exists (X ++ Y). split.
      * by rewrite Htr', Htr, <- app_assoc.
      * by apply emitted_under_app.
    + by apply IH in Hrun.
Qed.

Lemma complete_emits h out t e r t' e' :
  subscribers_ok t →
  complete h out (t, e) = (r, (t', e')) →
  (∃ q, t' = with_queue q t) ∧
  ∃ X, trace e' = trace e ++ X ∧ emitted_under (unique_ref t) X.
Proof.
  intros Hs Hcomp. unfold complete, get_future in Hcomp. unfold_se. simpl in Hcomp.
  assert ((∃ q, t = with_queue q t) ∧
          ∃ X, trace e = trace e ++ X ∧ emitted_under (unique_ref t) X) as Hsame.
  { split; [exists (queue t); by rewrite with_queue_id |].
    exists []. split; [by rewrite app_nil_r | apply emitted_under_nil]. }
  destruct (futures e !! h) as [fo|]; [| by injection Hcomp as <- <- <-].
  destruct (future_done (fstate fo) || negb (future_done out));
    [by injection Hcomp as <- <- <- |].
  match type of Hcomp with
  | invoke_callbacks _ _ (_, ?e1) = _ =>
      apply (invoke_callbacks_emits _ _ t e1) in Hcomp; [| done]
  end.
  done.
Qed.

Lemma call_emits args kwargs t e r t' e' :
  subscribers_ok t →
  __call__ args kwargs (t, e) = (r, (t', e')) →
  (∃ q, t' = with_queue q t) ∧
  ∃ X, trace e' = trace e ++ X ∧ emitted_under (unique_ref t) X.
Proof.
  intros Hs Hcall. split; [by eapply call_task |].
  apply call_spec in Hcall as (acts & r0 & Hth & _ & _ & Hcase).
  pose proof (emitted_under_PreSubmit (unique_ref t) _ (threaded_PreSubmit _ _ _ _ Hth))
    as Hacts.
  destruct r0 as [[[[fn a] k]|]|err].
  - destruct ((backend_submit (scheduler t) (backend e) fn a k).2) as [st|].
    + destruct Hcase as (_ & fin & Htr & Hfin). eexists. split; [exact Htr |].
      apply emitted_under_app; [done |].
      apply emitted_under_app; [by apply emitted_under_accept |].
      destruct (future_done st); [destruct Hfin as (q & _ & _ & -> & _) |
                                  destruct Hfin as (-> & _)].
      * by apply emitted_under_finalizer.
      * apply emitted_under_nil.
    + destruct Hcase as (_ & _ & _ & Htr). eexists. split; [exact Htr |].
      apply emitted_under_app; [done |]. intros m ev h pl q Hin. explicit_elem.
  - destruct Hcase as (_ & _ & _ & Htr). by eexists.
  - destruct Hcase as (_ & _ & _ & Htr). by eexists.
Qed.

Lemma run_emits ss t e :
  subscribers_ok t →
  (∃ q, (run ss (t, e)).1 = with_queue q t) ∧
  ∃ X, trace (run ss (t, e)).2 = trace e ++ X ∧ emitted_under (unique_ref t) X.
Proof.
  revert t e. induction ss as [|s ss IH]; intros t e Hs; simpl.
  - split; [exists (queue t); by rewrite with_queue_id |].
    exists []. split; [by rewrite app_nil_r | apply emitted_under_nil].
  - destruct (step s (t, e)) as [t1 e1] eqn:Hstep.
    assert ((∃ q, t1 = with_queue q t) ∧
            ∃ X, trace e1 = trace e ++ X ∧ emitted_under (unique_ref t) X)
      as ([q ->] & X & Htr & HX).
    { destruct s as [args kwargs | h out]; simpl in Hstep.
      - unfold submit in Hstep.
        destruct (__call__ args kwargs (t, e)) as [r [t2 e2]] eqn:Hcall.
        simpl in Hstep. simplify_eq. by eapply call_emits.
      - destruct (complete h out (t, e)) as [r [t2 e2]] eqn:Hcomp.
        simpl in Hstep. simplify_eq. by eapply complete_emits. }
    destruct (IH (with_queue q t) e1 Hs) as ([q' Hq'] & Y & Htr' & HY).
    split; [exists q'; by rewrite Hq' |].
    exists (X ++ Y). split.
    + by rewrite Htr', Htr, <- app_assoc.
    + by apply emitted_under_app.
Qed.

Lemma invoked_elem subs tr cb ev h :
  (cb, ev, h) ∈ invoked subs tr →
  ∃ m pl q, Emit m ev h pl q ∈ tr ∧ (m, ev, cb) ∈ subs.
Proof.
  unfold invoked. intros (a & Hin & Ha)%list_elem_of_bind.
  destruct a as [| | | m ev' h' pl q | |]; try by apply elem_of_nil in Hin.
  apply list_elem_of_fmap in Hin as (cb' & Heq & Hcb). simplify_eq.
  exists m, pl, q. split; [done |].
  unfold callbacks_for in Hcb.
  apply list_elem_of_omap in Hcb as ([[m' ev''] cb''] & Hsub & Hdec).
  case_decide as Hd; simplify_eq. by destruct Hd as [-> ->].
Qed.

(** C8: [copy] of a task whose plugins are objects of the heap, and whose
    reference was drawn from the supply of unique ids, returns a new task
    with the function, the scheduler reference and the name of the
    original and an empty queue. Its plugins are new objects, one per
    plugin of the original and in the same order, each holding what
    [p.copy()] made of the original (attached to the new task when
    [init_plugins] is set); the objects of the heap before the copy are as
    they were. Its reference differs from the original's and its
    subscribers are declared under it, so that through any history of the
    copy, no callback registered only under the namespace of the original
    is invoked by what the copy emits. *)
Theorem copy_is_independent t ip e :
  (∀ p, p ∈ plugins t → is_Some (plugin_heap e !! p)) →
  ref_uuid (unique_ref t) < uuid_supply e →
  ∃ t' e',
    copy t ip e = (Ok t', e') ∧
    function t' = function t ∧ scheduler t' = scheduler t ∧ name t' = name t ∧
    queue t' = [] ∧
    length (plugins t') = length (plugins t) ∧ NoDup (plugins t') ∧
    (∀ i p p',
       plugins t !! i = Some p → plugins t' !! i = Some p' →
       plugin_heap e !! p' = None ∧
       ∃ st, plugin_heap e !! p = Some st ∧
             plugin_heap e' !! p' =
               Some (if ip then plugin_attach_task (plugin_copy st) (unique_ref t')
                     else plugin_copy st)) ∧
    (∀ p st, plugin_heap e !! p = Some st → plugin_heap e' !! p = Some st) ∧
    unique_ref t' ≠ unique_ref t ∧ subscribers_ok t' ∧
    ∀ subs cb ss,
      (∀ m ev, (m, ev, cb) ∈ subs → m = unique_ref t) →
      ∀ ev h, (cb, ev, h) ∉ invoked subs (new_actions e' (run ss (t', e')).2).
Proof.
  intros Halloc Huuid. unfold copy.
  destruct (copy_plugins_spec (plugins t) e Halloc)
    as (ps' & e1 & Hcp & _ & _ & _ & Hu1 & Hlen & Hnd & Hnew & Hnew' & Hold & Hidx).
  destruct (init_heap (function t) (scheduler t) (Some (name t)) ps' ip e1 Hnd Hnew')
    as (t' & e' & Hinit & Hheap).
  exists t', e'. unfold bind. rewrite Hcp.
  pose proof (init_frame _ _ _ _ _ _ _ _ Hinit) as (_ & _ & _ & _ & Ht').
  destruct (Ht' t' eq_refl) as (Hs & Hq & Hfn & Hsch & Hps & _ & Hnm & _ & Href).
  split_and!; try done.
  - by rewrite Hps.
  - by rewrite Hps.
  - intros i p p' Hi Hi'. rewrite Hps in Hi'.
    pose proof (list_elem_of_lookup_2 _ _ _ Hi') as Hin.
    split; [by apply Hnew |].
    destruct (Hidx i p p' Hi Hi') as (st & Hst & Hcopy). exists st.
    split; [done |]. rewrite Hheap. destruct ip; [| done].
    rewrite decide_True by done. by rewrite Hcopy.
  - intros p st Hst.
    assert (p ∉ ps') as Hn. { intros Hin. apply Hnew in Hin. congruence. }
    rewrite Hheap, <- Hst, <- (Hold p Hn).
    destruct ip; [| done]. by rewrite decide_False.
  - rewrite Href, Hu1. intros Heq. rewrite <- Heq in Huuid. simpl in Huuid. lia.
  - intros subs cb ss Honly ev h Hinv.
    destruct (run_emits ss t' e' Hs) as (_ & X & Htr & HX).
    rewrite (new_actions_app _ _ _ Htr) in Hinv.
    apply invoked_elem in Hinv as (m & pl & q & Hin & Hsub).
    apply HX in Hin as ->. apply Honly in Hsub.
    rewrite Href, Hu1 in Hsub. rewrite <- Hsub in Huuid. simpl in Huuid. lia.
Qed.

End Properties.

(** * The properties at work in the concrete setting *)

Import Demo.

Lemma task0_built s :
  __init__ 5 s None [0; 1; 2] true (env0 heap0) = (Ok (task0 s), world0).
Proof. vm_compute. reflexivity. Qed.

Lemma task0_subscribers_ok s : subscribers_ok (task0 s).
Proof. by repeat split. Qed.

Lemma finalizer_removes_once_or_raises_witness :
  _process_future 3 (task0 1, world0) =
    (Raise (ValueError 3 []), (task0 1, world0)) ∧
  (3 ∉ queue (task0 1)) ∧
  Raise (ValueError 3 []) = Raise (A:=unit) (ValueError 3 (queue (task0 1))) ∧
  new_actions world0 world0 = [].
Proof.
  assert (_process_future 3 (task0 1, world0) =
            (Raise (ValueError 3 []), (task0 1, world0))) as Hrun by reflexivity.
  assert (3 ∉ queue (task0 1)) as Hn by apply not_elem_of_nil.
  destruct (finalizer_removes_once_or_raises 3 (task0 1) world0 _ _ _ Hrun)
    as [_ Herr].
  destruct (Herr Hn) as (Hr & _ & _ & Hnew).
  split_and!; [exact Hrun | exact Hn | exact Hr | exact Hnew].
Defined.

Lemma veto_aborts_submission_witness :
  submit 5%Z tt (after_one.1, after_one.2) =
    (result vetoed, (task_after vetoed, env_after vetoed)) ∧
  PreSubmit 1 105 6%Z tt None ∈ new_actions after_one.2 (env_after vetoed) ∧
  result vetoed = Ok None ∧
  task_after vetoed = after_one.1 ∧
  length (queue (task_after vetoed)) = length (queue after_one.1) ∧
  consulted (new_actions after_one.2 (env_after vetoed)) = [0; 1].
Proof.
  assert (submit 5%Z tt (after_one.1, after_one.2) =
            (result vetoed, (task_after vetoed, env_after vetoed))) as Hrun
    by (vm_compute; reflexivity).
  assert (PreSubmit 1 105 6%Z tt None ∈ new_actions after_one.2 (env_after vetoed))
    as Hin by (apply (list_elem_of_lookup_2 _ 1); vm_compute; reflexivity).
  destruct (veto_aborts_submission (H:=demo) 5%Z tt after_one.1 after_one.2 (result vetoed)
              (task_after vetoed) (env_after vetoed) 1 105 6%Z tt Hrun Hin)
    as (Hr & _ & _ & Ht & Hlen & _ & _).
  split_and!; [exact Hrun | exact Hin | exact Hr | exact Ht | exact Hlen |].
  vm_compute. reflexivity.
Defined.

Lemma backend_rejection_returns_None_witness :
  submit 5%Z tt (task0 2, world0) =
    (result rejected, (task_after rejected, env_after rejected)) ∧
  SchedulerSubmit 2 305 8%Z tt None ∈ new_actions world0 (env_after rejected) ∧
  result rejected = Ok None ∧
  queue (task_after rejected) = queue (task0 2) ∧
  futures (env_after rejected) = futures world0.
Proof.
  assert (submit 5%Z tt (task0 2, world0) =
            (result rejected, (task_after rejected, env_after rejected))) as Hrun
    by (vm_compute; reflexivity).
  assert (SchedulerSubmit 2 305 8%Z tt None ∈ new_actions world0 (env_after rejected))
    as Hin by (apply (list_elem_of_lookup_2 _ 3); vm_compute; reflexivity).
  destruct (backend_rejection_returns_None (H:=demo) 5%Z tt (task0 2) world0 (result rejected)
              (task_after rejected) (env_after rejected) 2 305 8%Z tt Hrun Hin)
    as (Hr & _ & _ & _ & _ & _ & Hq & Hf).
  split_and!; [exact Hrun | exact Hin | exact Hr | exact Hq | exact Hf].
Defined.





Lemma rewrite_is_per_submission_witness :
  submit 5%Z tt (task0 1, world0) =
    (result pooled, (task_after pooled, env_after pooled)) ∧
  dispatches (new_actions world0 (env_after pooled)) = [(1, (305, 8%Z, tt))] ∧
  function (task_after pooled) = function (task0 1) ∧
  function (task_after pooled) = 5.
Proof.
  assert (submit 5%Z tt (task0 1, world0) =
            (result pooled, (task_after pooled, env_after pooled))) as Hrun
    by (vm_compute; reflexivity).
  destruct (rewrite_is_per_submission (H:=demo) 5%Z tt (task0 1) world0 (result pooled)
              (task_after pooled) (env_after pooled) Hrun) as (Hfn & _).
  split_and!; [exact Hrun | vm_compute; reflexivity | exact Hfn |].
  rewrite Hfn. reflexivity.
Defined.


Lemma finalized_future_left_queue_before_events_witness :
  futures (env0 heap0) = ∅ ∧ trace (env0 heap0) = [] ∧
  __init__ 5 0 None [0; 1; 2] true (env0 heap0) = (Ok (task0 0), world0) ∧
  trace (run [Submit 5%Z tt] (task0 0, world0)).2 !! 8 =
    Some (Emit ref0 DONE 0 PNone []) ∧
  DONE ∈ [CANCELLED; DONE; EXCEPTION; RETURNED] ∧
  (∃ j, j < 8 ∧
        trace (run [Submit 5%Z tt] (task0 0, world0)).2 !! j = Some (QueueRemove 0)) ∧
  (0 ∉ @nil nat).
Proof.
  assert (futures (env0 heap0) = ∅) as Hf by reflexivity.
  assert (trace (env0 heap0) = []) as Htr by reflexivity.
  assert (__init__ 5 0 None [0; 1; 2] true (env0 heap0) = (Ok (task0 0), world0))
    as Hinit by (vm_compute; reflexivity).
  assert (trace (run [Submit 5%Z tt] (task0 0, world0)).2 !! 8 =
            Some (Emit ref0 DONE 0 PNone [])) as Hi by (vm_compute; reflexivity).
  assert (DONE ∈ [CANCELLED; DONE; EXCEPTION; RETURNED]) as Hev
    by (apply (list_elem_of_lookup_2 _ 1); reflexivity).
  destruct (finalized_future_left_queue_before_events (H:=demo) 5 0 None [0; 1; 2]
              true (env0 heap0) (task0 0) world0 [Submit (H:=demo) 5%Z tt] 8 ref0 DONE 0
              PNone [] Hf Htr Hinit Hi Hev) as (Hj & Hq & _).
  split_and!; [exact Hf | exact Htr | exact Hinit | exact Hi | exact Hev | exact Hj
              | exact Hq].
Defined.

Lemma copy_is_independent_witness :
  (∀ p, p ∈ plugins (task0 1) → is_Some (plugin_heap world0 !! p)) ∧
  ref_uuid (unique_ref (task0 1)) < uuid_supply world0 ∧
  ∃ t' e',
    copy (task0 1) true world0 = (Ok t', e') ∧
    function t' = function (task0 1) ∧ scheduler t' = scheduler (task0 1) ∧
    name t' = name (task0 1) ∧ queue t' = [] ∧
    length (plugins t') = length (plugins (task0 1)) ∧ NoDup (plugins t') ∧
    unique_ref t' ≠ unique_ref (task0 1) ∧ subscribers_ok t'.
Proof.
  assert (∀ p, p ∈ plugins (task0 1) → is_Some (plugin_heap world0 !! p)) as Halloc.
  { apply Forall_forall. repeat constructor; eexists; vm_compute; reflexivity. }
  assert (ref_uuid (unique_ref (task0 1)) < uuid_supply world0) as Huuid
    by (simpl; lia).
  destruct (copy_is_independent (H:=demo) (task0 1) true world0 Halloc Huuid)
    as (t' & e' & Hcopy & Hfn & Hs & Hnm & Hq & Hlen & Hnd & _ & _ & Href & Hsub & _).
  split_and!; [exact Halloc | exact Huuid |].
  exists t', e'.
  split_and!; [exact Hcopy | exact Hfn | exact Hs | exact Hnm | exact Hq | exact Hlen
              | exact Hnd | exact Href | exact Hsub].
Defined.

(** ** Scenarios *)

(** Sequential backend, [f(x) = x * 2] with [x = 5]: one [submitted] with
    the argument 5, one [done], one [returned] carrying 10, and the queue is
    empty when [submit] returns. *)
Example scenario_sequential :
  submit 5%Z tt (plain 5 0, empty_world) =
    (Ok (Some 0),
     (plain 5 0,
      mkEnv ∅ (<[0 := mkFuture (FResult 10%Z) []]> ∅) tt 1
        [SchedulerSubmit 0 5 5%Z tt (Some 0);
         QueueAppend 0;
         Emit ref0 SUBMITTED 0 (PArgs 5%Z tt) [0];
         AddDoneCallback 0;
         QueueRemove 0;
         Emit ref0 DONE 0 PNone [];
         Emit ref0 RETURNED 0 (PResult 10%Z) []])).
Proof. vm_compute. reflexivity. Qed.

(** A function that raises: [done], then [exception] carrying the error,
    and nothing is running afterwards. *)
Example scenario_failure :
  events_of 0 (trace (env_after (submit 5%Z tt (plain 7 0, empty_world)))) =
    [SUBMITTED; DONE; EXCEPTION] ∧
  Emit ref0 EXCEPTION 0 (PException "boom") [] ∈
    trace (env_after (submit 5%Z tt (plain 7 0, empty_world))) ∧
  n_running (task_after (submit 5%Z tt (plain 7 0, empty_world)))
            (env_after (submit 5%Z tt (plain 7 0, empty_world))) = 0.
Proof.
  split_and!; [by vm_compute | | by vm_compute].
  apply (list_elem_of_lookup_2 _ 6). by vm_compute.
Qed.

(** A pending future of the pool counts as running; cancelled before it
    starts, it gets [cancelled] and nothing else. *)
Example scenario_cancellation :
  n_running (task_after (submit 5%Z tt (plain 5 1, empty_world)))
            (env_after (submit 5%Z tt (plain 5 1, empty_world))) = 1 ∧
  events_of 0
    (trace (run [Submit 5%Z tt; Complete 0 FCancelled] (plain 5 1, empty_world)).2)
    = [SUBMITTED; CANCELLED] ∧
  queue (run [Submit 5%Z tt; Complete 0 FCancelled] (plain 5 1, empty_world)).1 = [].
Proof. split_and!; by vm_compute. Qed.

(** A callback registered on [on_returned] of the original is invoked by
    what the original emits, and not by what the copy emits. *)
Example scenario_copy :
  invoked on_returned_7 (trace (env_after (submit 5%Z tt (plain 5 0, empty_world))))
    = [(7, RETURNED, 0)] ∧
  result copy_then_submit = Ok (Some 0) ∧
  events_of 0 (trace (env_after copy_then_submit)) = [SUBMITTED; DONE; RETURNED] ∧
  invoked on_returned_7 (trace (env_after copy_then_submit)) = [].
Proof. split_and!; by vm_compute. Qed.

(** * More on the Task *)

Section TaskExtras.
Context `{Collaborators}.

Implicit Types (t : Task) (e : Env) (h : nat) (q : list nat).

(** ** Every stimulus is a sequence of moves *)

Lemma evolves_consistent t e t' e' :
  consistent t e → evolves t e t' e' → consistent t' e'.
Proof.
  intros Hc Hev. destruct Hev.
  - by eapply consistent_quiet.
  - by eapply consistent_accept_pending.
  - by eapply consistent_finalize.
Qed.

Lemma threaded_Raise_dangling x ps acts err :
  threaded x ps acts (Raise err) → err = DanglingReference.
Proof.
  remember (Raise err) as r eqn:Hr. induction 1; simplify_eq; [auto | done].
Qed.

Lemma not_done_is_pending (st : FutureState Ret Exn) :
  future_done st = false → st = FPending.
Proof. by destruct st. Qed.

Lemma call_moves args kwargs t e r t' e' :
  __call__ args kwargs (t, e) = (r, (t', e')) →
  (r = Raise DanglingReference ∨ ∃ o, r = Ok o) ∧
  (evolves t e t' e' ∨
   ∃ e1, evolves t e (with_queue (queue t ++ [fresh (dom (futures e))]) t) e1 ∧
         evolves (with_queue (queue t ++ [fresh (dom (futures e))]) t) e1 t' e').
Proof.
  intros Hcall.
  apply call_spec in Hcall as (acts & r0 & Hth & _ & _ & Hcase).
  pose proof (PreSubmit_quiet _ (threaded_PreSubmit _ _ _ _ Hth)) as Hquiet.
  destruct r0 as [[[[fn a] k]|]|err].
  - destruct ((backend_submit (scheduler t) (backend e) fn a k).2) as [st|].
    + destruct Hcase as (-> & fin & Htr & Hfin).
      set (h := fresh (dom (futures e))) in *.
      assert (futures e !! h = None) as Hnone.
      { apply not_elem_of_dom. apply is_fresh. }
      split; [right; by eexists |].
      destruct (future_done st) eqn:Hdone.
      * destruct Hfin as (q & Hq & -> & -> & Hf). right.
        exists (mkEnv (plugin_heap e)
                      (<[h := mkFuture FPending [unique_ref t]]> (futures e))
                      (backend e) (uuid_supply e)
                      (trace e ++ acts ++ accept_actions t fn a k h)).
        split.
        -- by eapply (evolves_accept t e _ h fn a k acts).
        -- change (with_queue q t)
             with (with_queue q (with_queue (queue t ++ [h]) t)).
           eapply (evolves_finalize (with_queue (queue t ++ [h]) t) _ e' h st q);
             try done.
           ++ simpl. rewrite Htr. by rewrite <- !app_assoc.
           ++ simpl. by rewrite insert_insert_eq.
      * destruct Hfin as (-> & -> & Hf). left.
        apply not_done_is_pending in Hdone as ->.
        rewrite app_nil_r in Htr.
        by eapply (evolves_accept t e e' h fn a k acts).
    + destruct Hcase as (-> & -> & Hf & Htr). split; [right; by eexists |]. left.
      eapply evolves_quiet; [done | exact Htr |].
      apply Forall_app. split; [done | by repeat constructor].
  - destruct Hcase as (-> & -> & Hf & Htr). split; [right; by eexists |]. left.
    by eapply evolves_quiet.
  - destruct Hcase as (-> & -> & Hf & Htr).
    apply threaded_Raise_dangling in Hth as ->. split; [by left |]. left.
    by eapply evolves_quiet.
Qed.

Lemma evolves_refl t e : evolves t e t e.
Proof.
  eapply (evolves_quiet t e e []); [done | by rewrite app_nil_r | constructor].
Qed.

Lemma complete_moves h out t e r t' e' :
  consistent t e →
  complete h out (t, e) = (r, (t', e')) →
  (t' = t ∧ e' = e ∧ (r = Raise DanglingReference ∨ r = Raise InvalidStateError) ∧
   ¬ ((∃ fo, futures e !! h = Some fo ∧ fstate fo = FPending) ∧
      future_done out = true)) ∨
  (r = Ok tt ∧ h ∈ queue t ∧ future_done out = true ∧
   ∃ q, list_remove h (queue t) = Some q ∧ t' = with_queue q t ∧
        trace e' = trace e ++ finalizer_actions t h out q ∧
        futures e' = <[h := mkFuture out []]> (futures e)).
Proof.
  intros Hc Hcomp. unfold complete, get_future in Hcomp.
  unfold bind, ret, raise, lift in Hcomp. simpl in Hcomp.
  destruct (futures e !! h) as [fo|] eqn:Hfo.
  2: { injection Hcomp as <- <- <-. left. split_and!; [done | done | by left |].
       by intros [(fo & ? & _) _]. }
  destruct (future_done (fstate fo) || negb (future_done out)) eqn:Hb.
  { injection Hcomp as <- <- <-. left. split_and!; [done | done | by right |].
    intros [(fo' & Hfo' & Hp) Hd]. simplify_eq. rewrite Hp, Hd in Hb. done. }
  apply orb_false_elim in Hb as [Hpend Hout]. apply negb_false_iff in Hout.
  pose proof Hc as (_ & _ & Hh & _). specialize (Hh h). unfold history_ok in Hh.
  rewrite Hfo, Hpend in Hh. destruct Hh as (Hin & Hcb & _).
  rewrite Hcb in Hcomp. simpl in Hcomp. unfold bind, ret, get_self in Hcomp.
  rewrite decide_True in Hcomp by done.
  destruct (list_remove_is_Some _ _ Hin) as [q Hq].
  match type of Hcomp with
  | context [_process_future h (t, ?e1)] =>
      destruct (process_future_present h t e1 q (mkFuture out []) Hq)
        as (e2 & Hpf & _ & Hf2 & _ & _ & Htr2);
        [by (simpl; rewrite lookup_insert_eq) |]
  end.
  rewrite Hpf in Hcomp. simpl in *. right.
  destruct out; try done; simpl in Hcomp; injection Hcomp as <- <- <-;
    (split_and!; [done | done | done |]); exists q; by split_and!.
Qed.

Lemma step_moves s t e :
  consistent t e →
  evolves t e (step s (t, e)).1 (step s (t, e)).2 ∨
  ∃ t1 e1, evolves t e t1 e1 ∧ evolves t1 e1 (step s (t, e)).1 (step s (t, e)).2.
Proof.
  intros Hc. destruct s as [args kwargs | h out]; simpl.
  - unfold submit. destruct (__call__ args kwargs (t, e)) as [r [t' e']] eqn:Hcall.
    destruct (call_moves _ _ _ _ _ _ _ Hcall) as (_ & [Hev | (e1 & Hev1 & Hev2)]);
      [by left | right; by eexists _, _].
  - destruct (complete h out (t, e)) as [r [t' e']] eqn:Hcomp.
    destruct (complete_moves _ _ _ _ _ _ _ Hc Hcomp)
      as [(-> & -> & _) | (_ & _ & Hd & q & Hq & -> & Htr & Hf)]; left.
    + apply evolves_refl.
    + by eapply evolves_finalize.
Qed.

(** An invariant of the moves is an invariant of every history. *)
Lemma run_invariant (P : Task → Env → Prop) :
  (∀ t e t' e', consistent t e → P t e → evolves t e t' e' → P t' e') →
  ∀ ss t e, consistent t e → P t e →
            P (run ss (t, e)).1 (run ss (t, e)).2.
Proof.
  intros Hstep ss. induction ss as [|s ss IH]; intros t e Hc HP; [done |].
  simpl. destruct (step s (t, e)) as [t' e'] eqn:Hs.
  pose proof (step_consistent s (t, e) Hc) as Hc'. rewrite Hs in Hc'.
  apply IH; [done |].
  destruct (step_moves s t e Hc) as [Hev | (t1 & e1 & Hev1 & Hev2)];
    rewrite Hs in *; simpl in *.
  - exact (Hstep _ _ _ _ Hc HP Hev).
  - exact (Hstep _ _ _ _ (evolves_consistent _ _ _ _ Hc Hev1)
                 (Hstep _ _ _ _ Hc HP Hev1) Hev2).
Qed.

(** ** The queue and the futures *)

Lemma filter_all {A} (P : A → Prop) `{∀ x, Decision (P x)} (l : list A) :
  Forall P l → filter P l = l.
Proof.
  induction 1 as [|x l Hx _ IH]; [done |].
  rewrite filter_cons_True by done. by rewrite IH.
Qed.

Lemma consistent_queue t e :
  consistent t e →
  (∀ h, h ∈ queue t ↔ ∃ fo, futures e !! h = Some fo ∧ fstate fo = FPending) ∧
  n_running t e = length (queue t).
Proof.
  intros (_ & _ & Hh & _).
  assert (∀ h, h ∈ queue t ↔ ∃ fo, futures e !! h = Some fo ∧ fstate fo = FPending)
    as Hq.
  { intros h. specialize (Hh h). unfold history_ok in Hh.
    destruct (futures e !! h) as [fo|] eqn:Hfo;
      [destruct (future_done (fstate fo)) eqn:Hd |].
    - destruct Hh as (Hn & _). split; [done |].
      intros (fo' & [= <-] & Hp). rewrite Hp in Hd. done.
    - destruct Hh as (Hin & _). split; [| done].
      intros _. exists fo. split; [done | by apply not_done_is_pending].
    - destruct Hh as (Hn & _). split; [done |]. by intros (fo' & ? & _). }
  split; [done |]. unfold n_running, not_done. rewrite filter_all; [done |].
  apply Forall_forall. intros h (fo & Hfo & Hp)%Hq.
  unfold is_running. by rewrite Hfo, Hp.
Qed.



(** X3: when the queue holds a future once and [_process_future] has run for
    it, running it again for the same future raises [ValueError] and
    changes nothing. *)
Theorem second_finalization_raises h t e r t1 e1 :
  NoDup (queue t) → h ∈ queue t →
  _process_future h (t, e) = (r, (t1, e1)) →
  (h ∉ queue t1) ∧
  _process_future h (t1, e1) = (Raise (ValueError h (queue t1)), (t1, e1)).
Proof.
  intros Hnd Hin Hpf. destruct (list_remove_is_Some _ _ Hin) as [q Hq].
  destruct (list_remove_NoDup _ _ _ Hnd Hq) as [_ Hnq].
  assert (t1 = with_queue q t) as ->.
  { destruct (futures e !! h) as [fo|] eqn:Hfo.
    - destruct (process_future_present h t e q fo Hq Hfo) as (e2 & Heq & _).
      rewrite Heq in Hpf. by injection Hpf as <- <- <-.
    - rewrite (process_future_dangling h t e q Hq Hfo) in Hpf.
      by injection Hpf as <- <- <-. }
  split; [done |]. apply process_future_absent. by apply list_remove_None.
Qed.

(** ** What the emissions carry *)

Lemma evolves_payloads t e t' e' :
  consistent t e → payloads_ok e → evolves t e t' e' → payloads_ok e'.
Proof.
  intros Hc Hp Hev. pose proof Hc as (Hs & _ & Hh & _).
  assert (∀ e2 X,
            trace e2 = trace e ++ X →
            (∀ h fo, futures e !! h = Some fo → future_done (fstate fo) = true →
                     futures e2 !! h = Some fo) →
            (∀ a, a ∈ X → carries e2 a) →
            payloads_ok e2) as Hgen.
  { intros e2 X Htr Hmono HX a Ha. rewrite Htr in Ha.
    apply elem_of_app in Ha as [Ha | Ha]; [| by apply HX].
    specialize (Hp a Ha). destruct a; try done. simpl in *.
    destruct Hp as [Hr Hx]. split.
    - intros Hev'. destruct (Hr Hev') as (r & cbs & -> & Hfo).
      exists r, cbs. split; [done |]. by apply Hmono.
    - intros Hev'. destruct (Hx Hev') as (r & cbs & -> & Hfo).
      exists r, cbs. split; [done |]. by apply Hmono. }
  destruct Hev as [e' X Hf Htr HX | e' h fn a k X Hnone HX Htr Hf
                   | e' h st q Hq Hd Htr Hf].
  - apply (Hgen e' X Htr); [intros h fo; by rewrite Hf |].
    intros a Ha. apply (proj1 (Forall_forall _ _) HX) in Ha. by destruct a.
  - apply (Hgen e' _ Htr).
    + intros h' fo Hfo _. rewrite Hf, lookup_insert_ne; [done | congruence].
    + intros a' [Ha | Ha]%elem_of_app.
      * apply (proj1 (Forall_forall _ _) HX) in Ha. by destruct a'.
      * unfold accept_actions in Ha. destruct Hs as (Hs0 & _).
        rewrite Hs0 in Ha. simpl in Ha.
        repeat (apply elem_of_cons in Ha as [-> | Ha]); try done.
        by apply elem_of_nil in Ha.
  - pose proof (list_remove_elem_of _ _ _ Hq) as Hin.
    apply (consistent_queue t e Hc) in Hin as (fo & Hfo & Hpend).
    apply (Hgen e' _ Htr).
    + intros h' fo' Hfo' Hd'. rewrite Hf, lookup_insert_ne; [done |].
      intros <-. simplify_eq. by rewrite Hpend in Hd'.
    + intros a Ha. unfold finalizer_actions in Ha.
      destruct Hs as (_ & Hs1 & Hs2 & Hs3 & Hs4).
      rewrite Hs1, Hs2, Hs3, Hs4 in Ha. simpl in Ha.
      apply elem_of_cons in Ha as [-> | Ha]; [done |].
      destruct st; try done;
        repeat (apply elem_of_cons in Ha as [-> | Ha]);
        try (by apply elem_of_nil in Ha);
        simpl; (split; [intros ? | intros ?]); try done;
        eexists _, _; (split; [done |]); by rewrite Hf, lookup_insert_eq.
Qed.

(** X4: in any such history, every emission of [returned] carries the
    result held by the future it is emitted for, and every emission of
    [exception] the error held by that future. *)
Theorem emissions_carry_the_outcome fn s nm ps ip e0 t0 e1 ss m ev h pl q :
  futures e0 = ∅ → trace e0 = [] →
  __init__ fn s nm ps ip e0 = (Ok t0, e1) →
  Emit m ev h pl q ∈ trace (run ss (t0, e1)).2 →
  (ev = RETURNED →
   ∃ r cbs, pl = PResult r ∧
            futures (run ss (t0, e1)).2 !! h = Some (mkFuture (FResult r) cbs)) ∧
  (ev = EXCEPTION →
   ∃ err cbs, pl = PException err ∧
              futures (run ss (t0, e1)).2 !! h = Some (mkFuture (FException err) cbs)).
Proof.
  intros Hf Htr Hinit Hin.
  pose proof (init_consistent _ _ _ _ _ _ _ _ Hf Htr Hinit) as Hc.
  assert (payloads_ok e1) as Hp.
  { intros a Ha. apply init_frame in Hinit as (_ & Htr1 & _).
    rewrite Htr1, Htr in Ha. by apply elem_of_nil in Ha. }
  pose proof (run_invariant (λ _ e, payloads_ok e) evolves_payloads ss t0 e1 Hc Hp)
    as Hall.
  exact (Hall _ Hin).
Qed.

(** ** Which futures and which plugins a stimulus concerns *)








Lemma for_plugins_heap ps fn a k e r e' :
  for_plugins ps fn a k e = (r, e') →
  ∃ acts, trace e' = trace e ++ acts ∧
          ∀ p, p ∉ consulted acts → plugin_heap e' !! p = plugin_heap e !! p.
Proof.
  revert fn a k e. induction ps as [|p0 ps IH]; intros fn a k e Hrun; simpl in Hrun.
  - unfold ret in Hrun. injection Hrun as <- <-. exists []. by rewrite app_nil_r.
  - unfold bind, pre_submit in Hrun.
    destruct (plugin_heap e !! p0) as [st|] eqn:Hp0.
    2: { injection Hrun as <- <-. exists []. by rewrite app_nil_r. }
    destruct (plugin_pre_submit st fn a k) as [st' items].
    destruct items as [[[fn' a'] k']|].
    + apply IH in Hrun as (acts & Htr & Hheap). simpl in *.
      exists (PreSubmit p0 fn a k (Some (fn', a', k')) :: acts). split.
      * by rewrite Htr, <- app_assoc.
      * intros p Hp. unfold consulted in Hp. rewrite hook_calls_PreSubmit in Hp.
        simpl in Hp. apply not_elem_of_cons in Hp as [Hne Hp].
        rewrite (Hheap p Hp). by rewrite lookup_insert_ne.
    + unfold ret in Hrun. injection Hrun as <- <-. simpl.
      exists [PreSubmit p0 fn a k None]. split; [done |].
      intros p Hp. unfold consulted in Hp. rewrite hook_calls_PreSubmit in Hp.
      simpl in Hp. apply not_elem_of_cons in Hp as [Hne Hp].
      by rewrite lookup_insert_ne.
Qed.

Lemma call_after_loop args kwargs t e r t' e' :
  __call__ args kwargs (t, e) = (r, (t', e')) →
  ∃ r0 e1 Y,
    for_plugins (plugins t) (function t) args kwargs e = (r0, e1) ∧
    plugin_heap e' = plugin_heap e1 ∧ trace e' = trace e1 ++ Y ∧ hook_calls Y = [].
Proof.
  intros Hcall. unfold __call__ in Hcall.
  unfold bind, ret, lift, get_self in Hcall.
  destruct (for_plugins (plugins t) (function t) args kwargs e) as [r0 e1] eqn:Hloop.
  exists r0, e1.
  destruct r0 as [[[[fn a] k]|]|err]; simpl in Hcall.
  2,3: injection Hcall as <- <- <-; exists []; by rewrite app_nil_r.
  unfold scheduler_submit in Hcall.
  destruct (backend_submit (scheduler t) (backend e1) fn a k) as [b ans].
  destruct ans as [st|]; simpl in Hcall.
  2: { injection Hcall as <- <- <-. by eexists. }
  set (h := fresh (dom (futures e1))) in *.
  unfold queue_append, emit, add_done_callback, get_future in Hcall.
  unfold bind, ret, lift, get_self, set_queue, log in Hcall.
  simpl in Hcall. rewrite lookup_insert_eq in Hcall. simpl in Hcall.
  destruct (future_done st) eqn:Hdone.
  - destruct (list_remove_is_Some h (queue t ++ [h])) as [q Hq].
    { apply elem_of_app. right. left. }
    match type of Hcall with
    | context [_process_future h (?t1, ?e2)] =>
        destruct (process_future_present h t1 e2 q (mkFuture st [])) as
          (e3 & Hpf & Hp3 & Hf3 & Hb3 & Hu3 & Htr3);
          [done | by (simpl; rewrite lookup_insert_eq) |]
    end.
    rewrite Hpf in Hcall. simpl in *.
    destruct st; try done; simpl in Hcall; injection Hcall as <- <- <-;
      (eexists; split_and!; [done | done | rewrite Htr3, <- !app_assoc; done | done]).
  - injection Hcall as <- <- <-. simpl.
    eexists. split_and!; [done | done | by rewrite <- !app_assoc | done].
Qed.

(** X6: a submission changes no plugin object other than those whose hook it
    calls: every plugin that is not consulted, in particular every plugin
    after a vetoing one, is as it was. *)
Theorem unconsulted_plugins_untouched args kwargs t e r t' e' p :
  submit args kwargs (t, e) = (r, (t', e')) →
  p ∉ consulted (new_actions e e') →
  plugin_heap e' !! p = plugin_heap e !! p.
Proof.
  unfold submit. intros Hcall Hp.
  destruct (call_after_loop _ _ _ _ _ _ _ Hcall) as (r0 & e1 & Y & Hloop & Hheap & Htr & HY).
  destruct (for_plugins_heap _ _ _ _ _ _ _ Hloop) as (acts & Htr1 & Hsame).
  rewrite Hheap. apply Hsame.
  assert (new_actions e e' = acts ++ Y) as Hnew.
  { apply new_actions_app. by rewrite Htr, Htr1, <- app_assoc. }
  unfold consulted in *. by rewrite Hnew, hook_calls_app, HY, app_nil_r in Hp.
Qed.

(** ** Attaching a plugin later *)

(** X7: [attach_plugin], when it returns, has put the plugin at the end of
    the plugin list and attached it to the task, and has left the queue,
    the function, the futures and the trace alone. From then on a
    submission consults the earlier plugins in their order and the new one
    last: whenever the backend is called, the last hook that ran is the one
    of the new plugin, and the backend gets what it returned. *)
Theorem attached_plugin_is_consulted_last p t e t1 e1 :
  attach_plugin p (t, e) = (Ok tt, (t1, e1)) →
  plugins t1 = plugins t ++ [p] ∧ queue t1 = queue t ∧
  function t1 = function t ∧ unique_ref t1 = unique_ref t ∧
  (∃ st, plugin_heap e !! p = Some st ∧
         plugin_heap e1 = <[p := plugin_attach_task st (unique_ref t)]> (plugin_heap e)) ∧
  futures e1 = futures e ∧ trace e1 = trace e ∧
  ∀ args kwargs r t2 e2,
    submit args kwargs (t1, e1) = (r, (t2, e2)) →
    consulted (new_actions e1 e2) `prefix_of` plugins t ++ [p] ∧
    ∀ d, d ∈ dispatches (new_actions e1 e2) →
         consulted (new_actions e1 e2) = plugins t ++ [p] ∧
         ∃ c, last (hook_calls (new_actions e1 e2)) = Some c ∧
              c.1.1 = p ∧ c.2 = Some d.2.
Proof.
  unfold attach_plugin, lift, attach_task. simpl.
  destruct (plugin_heap e !! p) as [st|] eqn:Hst; [| done].
  intros [= <- <-]. simpl. split_and!; try done; [by exists st |].
  intros args kwargs r t2 e2 Hcall. unfold submit in Hcall.
  destruct (call_reading _ _ _ _ _ _ _ Hcall) as (acts & r0 & Hth & Hhooks & Hdisp).
  simpl in Hth.
  pose proof (threaded_consulted _ _ _ _ Hth) as Hcons.
  unfold consulted in *. rewrite Hhooks, Hdisp, Hcons. split; [apply prefix_take |].
  intros d Hd. destruct r0 as [[y|]|err]; try by apply elem_of_nil in Hd.
  apply list_elem_of_singleton in Hd as ->.
  destruct (threaded_Ok _ _ _ _ Hth) as (Hfull & _ & Hlast).
  assert (take (length acts) (plugins t ++ [p]) = plugins t ++ [p]) as Hall.
  { by rewrite Hfull, firstn_all. }
  split; [done |].
  rewrite Hall in Hcons.
  assert (last ((λ c, c.1.1) <$> hook_calls acts) = Some p) as Hp.
  { by rewrite Hcons, last_snoc. }
  rewrite fmap_last in Hp.
  destruct (last (hook_calls acts)) as [c|]; [| done].
  exists c. simpl in Hp. split_and!; [done | by injection Hp | done].
Qed.

(** ** A future that is terminal when it is handed out *)


(** ** The order of the queue *)

Lemma events_of_elem h ev tr :
  ev ∈ events_of h tr → ∃ a m pl q, tr !! a = Some (Emit m ev h pl q).
Proof.
  unfold events_of. intros (a & Ha & Hev)%list_elem_of_omap.
  destruct a; try done. case_decide; [| done]. simplify_eq.
  apply list_elem_of_lookup_1 in Ha as [i Hi]. eauto.
Qed.

Lemma list_remove_order x l q i j h1 h2 :
  list_remove x l = Some q → q !! i = Some h1 → q !! j = Some h2 → i < j →
  ∃ i' j', i' < j' ∧ l !! i' = Some h1 ∧ l !! j' = Some h2.
Proof.
  intros (l1 & l2 & -> & _ & ->)%list_remove_Some Hi Hj Hij.
  assert (∀ k y, (l1 ++ l2) !! k = Some y →
                 (l1 ++ x :: l2) !! (if decide (k < length l1) then k else S k) = Some y)
    as Hshift.
  { intros k y Hk. case_decide.
    - rewrite lookup_app_l in Hk by done. by rewrite lookup_app_l.
    - rewrite lookup_app_r in Hk by lia. rewrite lookup_app_r by lia.
      by replace (S k - length l1) with (S (k - length l1)) by lia. }
  eexists _, _. split; [| split; [exact (Hshift _ _ Hi) | exact (Hshift _ _ Hj)]].
  repeat case_decide; lia.
Qed.

Lemma evolves_order t e t' e' :
  consistent t e → in_submission_order t e → evolves t e t' e' →
  in_submission_order t' e'.
Proof.
  intros Hc Ho Hev. pose proof Hc as (Hs & _ & Hh & _).
  assert (∀ (t2 : Task) e2 X,
            trace e2 = trace e ++ X →
            (∀ i j h1 h2,
               queue t2 !! i = Some h1 → queue t2 !! j = Some h2 → i < j →
               (∃ i' j', i' < j' ∧ queue t !! i' = Some h1 ∧ queue t !! j' = Some h2) ∨
               ∃ a b m1 m2 pl1 pl2 q1 q2,
                 a < b ∧
                 trace e2 !! a = Some (Emit m1 SUBMITTED h1 pl1 q1) ∧
                 trace e2 !! b = Some (Emit m2 SUBMITTED h2 pl2 q2)) →
            in_submission_order t2 e2) as Hgen.
  { intros t2 e2 X Htr Hcases i j h1 h2 Hi Hj Hij.
    destruct (Hcases i j h1 h2 Hi Hj Hij) as [(i' & j' & Hij' & Hi' & Hj') | Hnew];
      [| done].
    destruct (Ho i' j' h1 h2 Hi' Hj' Hij')
      as (a & b & m1 & m2 & pl1 & pl2 & q1 & q2 & Hab & Ha & Hb).
    exists a, b, m1, m2, pl1, pl2, q1, q2. rewrite Htr.
    split_and!; [done | by apply lookup_app_l_Some | by apply lookup_app_l_Some]. }
  destruct Hev as [e' X Hf Htr HX | e' h fn a k X Hnone HX Htr Hf
                   | e' h st q Hq Hd Htr Hf].
  - apply (Hgen t e' X Htr). intros i j h1 h2 Hi Hj Hij. left. by exists i, j.
  - apply (Hgen _ e' _ Htr). simpl. intros i j h1 h2 Hi Hj Hij.
    destruct (decide (j < length (queue t))) as [Hlt | Hge].
    { left. exists i, j. rewrite lookup_app_l in Hi by lia.
      by rewrite lookup_app_l in Hj by lia. }
    right. rewrite lookup_app_l in Hi by (apply lookup_lt_Some in Hj;
      rewrite length_app in Hj; simpl in Hj; lia).
    assert (h2 = h) as ->.
    { rewrite lookup_app_r in Hj by lia.
      destruct (j - length (queue t)) as [| n]; [by injection Hj | ].
      by destruct n. }
    assert (h1 ∈ queue t) as Hin by (by eapply list_elem_of_lookup_2).
    specialize (Hh h1). unfold history_ok in Hh.
    destruct (futures e !! h1) as [fo|]; [| by destruct Hh].
    destruct (future_done (fstate fo)); [by destruct Hh |].
    destruct Hh as (_ & _ & Hevs & _).
    destruct (events_of_elem h1 SUBMITTED (trace e)) as (a' & m1 & pl1 & q1 & Ha').
    { rewrite Hevs. left. }
    destruct Hs as (Hs0 & _).
    exists a', (length (trace e) + (length X + 2)), m1, (unique_ref t), pl1,
      (PArgs a k), q1, (queue t ++ [h]).
    rewrite Htr. split_and!.
    + apply lookup_lt_Some in Ha'. lia.
    + by apply lookup_app_l_Some.
    + rewrite lookup_app_r by lia. rewrite lookup_app_r by lia.
      replace (length (trace e) + (length X + 2) - length (trace e) - length X)
        with 2 by lia.
      unfold accept_actions. by rewrite Hs0.
  - apply (Hgen _ e' _ Htr). simpl. intros i j h1 h2 Hi Hj Hij. left.
    by eapply list_remove_order.
Qed.

(** X9: in any history of a task built by [__init__], [futures] lists the
    pending futures in the order of their submission: of two futures in
    the list, [submitted] was emitted for the earlier one first. *)
Theorem futures_are_in_submission_order fn s nm ps ip e0 t0 e1 ss :
  futures e0 = ∅ → trace e0 = [] →
  __init__ fn s nm ps ip e0 = (Ok t0, e1) →
  in_submission_order (run ss (t0, e1)).1 (run ss (t0, e1)).2.
Proof.
  intros Hf Htr Hinit.
  pose proof (init_consistent _ _ _ _ _ _ _ _ Hf Htr Hinit) as Hc.
  apply (run_invariant in_submission_order evolves_order ss t0 e1 Hc).
  apply init_frame in Hinit as (_ & _ & _ & _ & Ht).
  destruct (Ht t0 eq_refl) as (_ & Hq & _).
  intros i j h1 h2 Hi. unfold futures_ in Hi. by rewrite Hq in Hi.
Qed.

End TaskExtras.

(** ** The properties above at work in the concrete setting *)



Lemma second_finalization_raises_witness :
  NoDup (queue landed.1) ∧ 0 ∈ queue landed.1 ∧
  _process_future 0 (landed.1, landed.2) =
    (result finalized, (task_after finalized, env_after finalized)) ∧
  result finalized = Ok tt ∧
  (0 ∉ queue (task_after finalized)) ∧
  _process_future 0 (task_after finalized, env_after finalized) =
    (Raise (ValueError 0 (queue (task_after finalized))),
     (task_after finalized, env_after finalized)).
Proof.
  assert (NoDup (queue landed.1)) as Hnd by (apply NoDup_singleton).
  assert (0 ∈ queue landed.1) as Hin by (apply list_elem_of_here).
  assert (_process_future 0 (landed.1, landed.2) =
            (result finalized, (task_after finalized, env_after finalized))) as Hrun
    by (vm_compute; reflexivity).
  destruct (second_finalization_raises (H:=demo) 0 landed.1 landed.2 (result finalized)
              (task_after finalized) (env_after finalized) Hnd Hin Hrun)
    as (Hout & Hagain).
  split_and!; [exact Hnd | exact Hin | exact Hrun | vm_compute; reflexivity
              | exact Hout | exact Hagain].
Defined.

Lemma emissions_carry_the_outcome_witness :
  futures (env0 heap0) = ∅ ∧ trace (env0 heap0) = [] ∧
  __init__ 5 1 None [0; 1; 2] true (env0 heap0) = (Ok (task0 1), world0) ∧
  Emit ref0 RETURNED 0 (PResult 3%Z) [] ∈
    trace (run [Submit 5%Z tt; Complete 0 (FResult 3%Z)] (task0 1, world0)).2 ∧
  ∃ r cbs,
    PResult 3%Z = PResult r ∧
    futures (run [Submit 5%Z tt; Complete 0 (FResult 3%Z)] (task0 1, world0)).2 !! 0 =
      Some (mkFuture (FResult r) cbs).
Proof.
  assert (futures (env0 heap0) = ∅) as Hf by reflexivity.
  assert (trace (env0 heap0) = []) as Htr by reflexivity.
  assert (__init__ 5 1 None [0; 1; 2] true (env0 heap0) = (Ok (task0 1), world0))
    as Hinit by (vm_compute; reflexivity).
  assert (Emit ref0 RETURNED 0 (PResult 3%Z) [] ∈
            trace (run [Submit 5%Z tt; Complete 0 (FResult 3%Z)] (task0 1, world0)).2)
    as Hin by (apply (list_elem_of_lookup_2 _ 9); vm_compute; reflexivity).
  destruct (emissions_carry_the_outcome (H:=demo) 5 1 None [0; 1; 2] true
              (env0 heap0) (task0 1) world0
              [Submit (H:=demo) 5%Z tt; Complete (H:=demo) 0 (FResult 3%Z)]
              ref0 RETURNED 0 (PResult (H:=demo) 3%Z) [] Hf Htr Hinit Hin) as (Hret & _).
  split_and!; [exact Hf | exact Htr | exact Hinit | exact Hin | exact (Hret eq_refl)].
Defined.


Lemma unconsulted_plugins_untouched_witness :
  submit 5%Z tt (after_one.1, after_one.2) =
    (result vetoed, (task_after vetoed, env_after vetoed)) ∧
  (2 ∉ consulted (new_actions after_one.2 (env_after vetoed))) ∧
  plugin_heap (env_after vetoed) !! 2 = plugin_heap after_one.2 !! 2 ∧
  plugin_heap after_one.2 !! 2 = Some (1, 5).
Proof.
  assert (submit 5%Z tt (after_one.1, after_one.2) =
            (result vetoed, (task_after vetoed, env_after vetoed))) as Hrun
    by (vm_compute; reflexivity).
  assert (2 ∉ consulted (new_actions after_one.2 (env_after vetoed))) as Hn.
  { replace (consulted (new_actions after_one.2 (env_after vetoed))) with [0; 1]
      by (vm_compute; reflexivity).
    intros Hin. apply elem_of_cons in Hin as [Hin | Hin]; [discriminate Hin |].
    apply elem_of_cons in Hin as [Hin | Hin]; [discriminate Hin |].
    by apply elem_of_nil in Hin. }
  split_and!; [exact Hrun | exact Hn | | vm_compute; reflexivity].
  exact (unconsulted_plugins_untouched (H:=demo) 5%Z tt after_one.1 after_one.2
           (result vetoed) (task_after vetoed) (env_after vetoed) 2 Hrun Hn).
Defined.

Lemma attached_plugin_is_consulted_last_witness :
  attach_plugin 2 (set_plugins [0] (task0 1), world0) =
    (Ok tt, (task_after attached, env_after attached)) ∧
  plugins (task_after attached) = plugins (set_plugins [0] (task0 1)) ++ [2] ∧
  submit 5%Z tt (task_after attached, env_after attached) =
    (result submitted_after_attach,
     (task_after submitted_after_attach, env_after submitted_after_attach)) ∧
  (1, (205, 7%Z, tt)) ∈
    dispatches (new_actions (env_after attached) (env_after submitted_after_attach)) ∧
  consulted (new_actions (env_after attached) (env_after submitted_after_attach)) =
    plugins (set_plugins [0] (task0 1)) ++ [2].
Proof.
  assert (attach_plugin 2 (set_plugins [0] (task0 1), world0) =
            (Ok tt, (task_after attached, env_after attached))) as Hatt
    by (vm_compute; reflexivity).
  assert (submit 5%Z tt (task_after attached, env_after attached) =
            (result submitted_after_attach,
             (task_after submitted_after_attach, env_after submitted_after_attach)))
    as Hrun by (vm_compute; reflexivity).
  assert ((1, (205, 7%Z, tt)) ∈
            dispatches (new_actions (env_after attached)
                                    (env_after submitted_after_attach))) as Hd
    by (apply (list_elem_of_lookup_2 _ 0); vm_compute; reflexivity).
  destruct (attached_plugin_is_consulted_last (H:=demo) 2 (set_plugins [0] (task0 1))
              world0 (task_after attached) (env_after attached) Hatt)
    as (Hps & _ & _ & _ & _ & _ & _ & Hsub).
  destruct (Hsub 5%Z tt (result submitted_after_attach)
              (task_after submitted_after_attach) (env_after submitted_after_attach)
              Hrun) as (_ & Hlast).
  destruct (Hlast (1, (205, 7%Z, tt)) Hd) as (Hcons & _).
  split_and!; [exact Hatt | exact Hps | exact Hrun | exact Hd | exact Hcons].
Defined.


Lemma futures_are_in_submission_order_witness :
  futures (env0 heap0) = ∅ ∧ trace (env0 heap0) = [] ∧
  __init__ 5 1 None [0; 2] true (env0 heap0) = (Ok task12, world0) ∧
  futures_ (run [Submit 5%Z tt; Submit 5%Z tt] (task12, world0)).1 = [0; 1] ∧
  in_submission_order (run [Submit 5%Z tt; Submit 5%Z tt] (task12, world0)).1
                      (run [Submit 5%Z tt; Submit 5%Z tt] (task12, world0)).2.
Proof.
  assert (futures (env0 heap0) = ∅) as Hf by reflexivity.
  assert (trace (env0 heap0) = []) as Htr by reflexivity.
  assert (__init__ 5 1 None [0; 2] true (env0 heap0) = (Ok task12, world0))
    as Hinit by (vm_compute; reflexivity).
  split_and!; [exact Hf | exact Htr | exact Hinit | vm_compute; reflexivity |].
  exact (futures_are_in_submission_order (H:=demo) 5 1 None [0; 2] true
           (env0 heap0) task12 world0
           [Submit (H:=demo) 5%Z tt; Submit (H:=demo) 5%Z tt] Hf Htr Hinit).
Defined.

(** * The chain of steps *)

Import Step.

Section StepFacts.
Context {Key : Type} `{EqDecision Key} {Attrs : Type}.
Implicit Types (σ : gmap nat (@StepObj Key Attrs)) (rs old new : list nat).

Lemma copies_spec σ old :
  (∀ r, r ∈ old → is_Some (σ !! r)) →
  ∃ new σ',
    copies σ old = (Ok new, σ') ∧
    length new = length old ∧ NoDup new ∧
    (∀ r, r ∈ new → σ !! r = None) ∧
    (∀ r, r ∉ new → σ' !! r = σ !! r) ∧
    (∀ i r, new !! i = Some r → ∃ r0, old !! i = Some r0 ∧ σ' !! r = σ !! r0).
Proof.
  revert σ. induction old as [| s old IH]; intros σ Hall.
  - exists [], σ. simpl. split_and!; try done.
    + constructor.
    + intros r Hr. by apply elem_of_nil in Hr.
  - simpl. destruct (Hall s) as [obj Hobj]; [left |]. rewrite Hobj.
    set (r := fresh (dom σ)).
    assert (σ !! r = None) as Hr by (apply not_elem_of_dom, is_fresh).
    destruct (IH (<[r := obj]> σ)) as (new & σ' & Hc & Hlen & Hnd & Hfresh & Hframe & Hobjs).
    { intros r' Hr'. destruct (decide (r' = r)) as [-> |].
      - rewrite lookup_insert_eq. by eexists.
      - rewrite lookup_insert_ne by done. apply Hall. by right. }
    rewrite Hc. exists (r :: new), σ'.
    assert (r ∉ new) as Hrn.
    { intros Hin. apply Hfresh in Hin. by rewrite lookup_insert_eq in Hin. }
    assert (∀ r', r' ∈ new → r' ≠ r) as Hne by (intros r' ? ->; done).
    split_and!.
    + done.
    + simpl. by rewrite Hlen.
    + by constructor.
    + intros r' [-> | Hin]%elem_of_cons; [done |].
      specialize (Hfresh _ Hin). by rewrite lookup_insert_ne in Hfresh by (by apply not_eq_sym, Hne).
    + intros r' [Hr' Hn]%not_elem_of_cons.
      rewrite (Hframe _ Hn). by rewrite lookup_insert_ne.
    + intros [| i] r' Hi; simpl in Hi.
      * injection Hi as <-. exists s. split; [done |].
        by rewrite (Hframe _ Hrn), lookup_insert_eq.
      * destruct (Hobjs _ _ Hi) as (r0 & Hr0 & Heq). exists r0. split; [done |].
        rewrite Heq. apply lookup_insert_ne. intros <-.
        assert (is_Some (σ !! r)) as [? ?]; [| congruence].
        apply Hall. right. by eapply list_elem_of_lookup_2.
Qed.

Lemma link_spec σ a rs :
  NoDup rs →
  (∀ r, r ∉ rs → link σ a rs !! r = σ !! r) ∧
  (∀ i r, rs !! i = Some r →
          link σ a rs !! r =
            set_links (match i with 0 => a | S j => rs !! j end) (rs !! S i) <$> σ !! r).
Proof.
  revert σ a. induction rs as [| b rest IH]; intros σ a Hnd; simpl.
  - split; [done |]. intros i r Hi. by rewrite lookup_nil in Hi.
  - apply NoDup_cons in Hnd as [Hb Hnd].
    destruct (IH (alter (set_links a (List.head rest)) b σ) (Some b) Hnd) as [Hout Hin].
    split.
    + intros r [Hr Hn]%not_elem_of_cons. rewrite (Hout _ Hn).
      by apply lookup_alter_ne.
    + intros [| i] r Hi; simpl in Hi.
      * injection Hi as <-. rewrite (Hout _ Hb), lookup_alter_eq.
        by rewrite head_lookup.
      * rewrite (Hin _ _ Hi).
        assert (r ≠ b) as Hne.
        { intros ->. apply Hb. by eapply list_elem_of_lookup_2. }
        rewrite lookup_alter_ne by done. by destruct i.
Qed.


Lemma chain_spec limit σ steps expand old :
  expanded limit σ steps expand = Ok old →
  (∀ r, r ∈ old → is_Some (σ !! r)) →
  ∃ new σ',
    chain limit σ steps expand = (Ok new, σ') ∧
    length new = length old ∧ linked σ' new ∧
    (∀ r, r ∈ new → σ !! r = None) ∧
    (∀ r, is_Some (σ !! r) → σ' !! r = σ !! r) ∧
    (∀ i r, new !! i = Some r →
            ∃ r0 o s, old !! i = Some r0 ∧ σ !! r0 = Some o ∧ σ' !! r = Some s ∧
                      name s = name o ∧ attrs s = attrs o).
Proof.
  intros Hexp Hall. unfold chain. rewrite Hexp.
  destruct (copies_spec σ old Hall)
    as (new & σ1 & Hc & Hlen & Hnd & Hfresh & Hframe & Hobjs).
  rewrite Hc.
  assert (∀ r, is_Some (σ !! r) → r ∉ new) as Hold.
  { intros r [o Ho] Hin. apply Hfresh in Hin. congruence. }
  assert (∀ i r, new !! i = Some r →
                 ∃ r0 o, old !! i = Some r0 ∧ σ !! r0 = Some o ∧ σ1 !! r = Some o)
    as Hobjs'.
  { intros i r Hi. destruct (Hobjs _ _ Hi) as (r0 & Hr0 & Heq).
    destruct (Hall r0) as [o Ho]; [by eapply list_elem_of_lookup_2 |].
    exists r0, o. by rewrite Heq. }
  destruct (link_spec σ1 None new Hnd) as [Hout Hin].
  exists new, (link σ1 None new).
  split; [by destruct new |].
  split_and!; [done | | done | |].
  - split; [done |]. intros i r Hi.
    destruct (Hobjs' _ _ Hi) as (r0 & o & _ & _ & Ho).
    rewrite (Hin _ _ Hi), Ho. simpl. eexists. split; [done |]. by destruct i.
  - intros r Hr. rewrite (Hout _ (Hold _ Hr)). apply Hframe, Hold, Hr.
  - intros i r Hi. destruct (Hobjs' _ _ Hi) as (r0 & o & Hr0 & Hσ & Ho).
    exists r0, o. eexists. rewrite (Hin _ _ Hi), Ho. simpl. by split_and!.
Qed.

Lemma linked_lookup σ rs i r :
  linked σ rs → rs !! i = Some r →
  ∃ s, σ !! r = Some s ∧
       prv s = match i with 0 => None | S j => rs !! j end ∧ nxt s = rs !! S i.
Proof. intros [_ Hl]. apply Hl. Qed.

Lemma follows_tail σ b x path : follows σ b (x :: path) → follows σ b path.
Proof. intros Hp k y Hk. apply (Hp (S k) y Hk). Qed.

Lemma iter_path limit σ b to path r include_self :
  follows σ b path → path !! 0 = Some r → length path ≤ limit →
  ∃ l rest,
    path = l ++ rest ∧
    iter limit σ r b include_self to = Ok (if include_self then l else List.tail l) ∧
    (∀ x s, x ∈ l → σ !! x = Some s → to ≠ Some (name s)) ∧
    match rest with
    | [] => True
    | x :: _ => ∃ s, σ !! x = Some s ∧ to = Some (name s)
    end.
Proof.
  revert path r include_self.
  induction limit as [| limit IH]; intros path r incl Hp Hr Hlim.
  - destruct path; [done | simpl in Hlim; lia].
  - destruct path as [| r0 path]; [done |]. injection Hr as ->.
    destruct (Hp 0 r eq_refl) as (s & Hs & Hnext). simpl in Hnext.
    cbn [iter]. rewrite Hs.
    destruct (decide (to = Some (name s))) as [Hto | Hto].
    { exists [], (r :: path). split_and!; [done | by destruct incl | | by exists s].
      intros x ? Hx. by apply elem_of_nil in Hx. }
    rewrite Hnext. destruct path as [| r' path]; simpl.
    { exists [r], []. split_and!; [done | by destruct incl | | done].
      intros x s' ->%list_elem_of_singleton. congruence. }
    destruct (IH (r' :: path) r' true (follows_tail _ _ _ _ Hp) eq_refl)
      as (l & rest & Hpath & -> & Hl & Hrest); [simpl in *; lia |].
    exists (r :: l), rest. split_and!; [by rewrite Hpath | by destruct incl | | done].
    intros x s' [-> | Hx]%elem_of_cons; [congruence | by apply Hl].
Qed.

Lemma iter_path_all limit σ b path r include_self :
  follows σ b path → path !! 0 = Some r → length path ≤ limit →
  iter limit σ r b include_self None = Ok (if include_self then path else List.tail path).
Proof.
  intros Hp Hr Hlim.
  destruct (iter_path limit σ b None path r include_self Hp Hr Hlim)
    as (l & rest & -> & -> & _ & Hrest).
  destruct rest as [| x rest]; [by rewrite app_nil_r |].
  by destruct Hrest as (? & _ & ?).
Qed.

Lemma follows_forward σ rs i : linked σ rs → follows σ false (drop i rs).
Proof.
  intros Hl k x Hk. rewrite lookup_drop in Hk.
  destruct (linked_lookup _ _ _ _ Hl Hk) as (s & Hs & _ & Hnxt).
  exists s. split; [done |]. rewrite Hnxt, lookup_drop. f_equal. lia.
Qed.

Lemma follows_backward σ rs i :
  linked σ rs → i < length rs → follows σ true (reverse (take (S i) rs)).
Proof.
  intros Hl Hi k x Hk.
  assert (length (take (S i) rs) = S i) as Hlen by (rewrite length_take; lia).
  assert (k < S i) as Hki.
  { apply lookup_lt_Some in Hk. by rewrite length_reverse, Hlen in Hk. }
  rewrite reverse_lookup, Hlen, lookup_take_lt in Hk by lia.
  destruct (linked_lookup _ _ _ _ Hl Hk) as (s & Hs & Hprv & _).
  exists s. split; [done |]. rewrite Hprv.
  destruct (decide (S k < S i)) as [Hlt | Hge].
  - rewrite reverse_lookup, Hlen, lookup_take_lt by lia.
    replace (S i - S k) with (S (S i - S (S k))) by lia. done.
  - replace (S i - S k) with 0 by lia. symmetry. apply lookup_ge_None.
    rewrite length_reverse, Hlen. lia.
Qed.

Lemma linked_frame σ σ' rs :
  linked σ rs → (∀ r, is_Some (σ !! r) → σ' !! r = σ !! r) → linked σ' rs.
Proof.
  intros [Hnd Hl] Hframe. split; [done |]. intros i r Hi.
  destruct (Hl _ _ Hi) as (s & Hs & Hlinks). exists s. split; [| done].
  rewrite Hframe; [done | by exists s].
Qed.

Lemma linked_allocated σ rs r : linked σ rs → r ∈ rs → is_Some (σ !! r).
Proof.
  intros Hl [i Hi]%list_elem_of_lookup_1.
  destruct (linked_lookup _ _ _ _ Hl Hi) as (s & Hs & _). by exists s.
Qed.

Lemma iter_rest σ rs limit i r :
  linked σ rs → rs !! i = Some r → length rs ≤ limit →
  iter limit σ r false true None = Ok (drop i rs).
Proof.
  intros Hl Hi Hlim.
  apply (iter_path_all limit σ false (drop i rs) r true).
  - by apply follows_forward.
  - rewrite lookup_drop. by rewrite Nat.add_0_r.
  - rewrite length_drop. lia.
Qed.

Lemma names_eq σ σ' old new :
  length new = length old →
  (∀ i r, new !! i = Some r →
          ∃ r0 o s, old !! i = Some r0 ∧ σ !! r0 = Some o ∧ σ' !! r = Some s ∧
                    name s = name o ∧ attrs s = attrs o) →
  names σ' new = names σ old.
Proof.
  intros Hlen Hobjs. apply list_eq. intros i. unfold names.
  rewrite !list_lookup_fmap.
  destruct (new !! i) as [r|] eqn:Hi.
  - destruct (Hobjs _ _ Hi) as (r0 & o & s & -> & Ho & Hs & Hn & _).
    simpl. rewrite Ho, Hs. simpl. by rewrite Hn.
  - apply lookup_ge_None in Hi. rewrite Hlen in Hi.
    apply lookup_ge_None in Hi. by rewrite Hi.
Qed.

(** X10: in a chain, iterating from a step visits this step and those after
    it in order, iterating backwards this step and those before it from the
    nearest one on. *)
Theorem iter_walks_the_chain σ rs limit i r :
  linked σ rs → rs !! i = Some r → length rs ≤ limit →
  iter limit σ r false true None = Ok (drop i rs) ∧
  iter limit σ r true true None = Ok (reverse (take (S i) rs)).
Proof.
  intros Hl Hi Hlim. split; [by apply iter_rest |].
  pose proof (lookup_lt_Some _ _ _ Hi) as Hlt.
  apply (iter_path_all limit σ true (reverse (take (S i) rs)) r true).
  - by apply follows_backward.
  - rewrite reverse_lookup; rewrite length_take; [| lia].
    rewrite lookup_take_lt by lia. by replace (S i `min` length rs - 1) with i by lia.
  - rewrite length_reverse, length_take. lia.
Qed.

(** X11: every step of a chain has the same head, the first step, and the
    same tail, the last step; the steps that precede a step, read from the
    farthest one, then the step, then the steps that follow it, make up the
    chain. *)
Theorem head_and_tail_of_the_chain σ rs limit i r :
  linked σ rs → rs !! i = Some r → length rs ≤ limit →
  ∃ first final before after,
    rs !! 0 = Some first ∧ last rs = Some final ∧
    head limit σ r = Ok first ∧ tail limit σ r = Ok final ∧
    preceeding limit σ r = Ok before ∧ proceeding limit σ r = Ok after ∧
    reverse before ++ [r] ++ after = rs.
Proof.
  intros Hl Hi Hlim.
  pose proof (lookup_lt_Some _ _ _ Hi) as Hlt.
  destruct (iter_walks_the_chain σ rs limit i r Hl Hi Hlim) as [Hfwd Hbwd].
  destruct (lookup_lt_is_Some_2 rs 0) as [first Hfirst]; [lia |].
  destruct (last rs) as [final|] eqn:Hfinal;
    [| apply last_None in Hfinal; subst rs; simpl in Hlt; lia].
  exists first, final, (reverse (take i rs)), (drop (S i) rs).
  split_and!; [done | done | | | | |].
  - unfold head. rewrite Hbwd. simpl.
    by rewrite last_reverse, head_lookup, lookup_take_lt, Hfirst by lia.
  - unfold tail. rewrite Hfwd. simpl.
    assert (last (drop i rs) = Some final) as ->; [| done].
    rewrite <- Hfinal, !last_lookup, lookup_drop, length_drop.
    f_equal. lia.
  - unfold preceeding.
    rewrite (iter_path_all limit σ true (reverse (take (S i) rs)) r false).
    + by rewrite (take_S_r _ _ _ Hi), reverse_snoc.
    + by apply follows_backward.
    + rewrite reverse_lookup; rewrite length_take; [| lia].
      rewrite lookup_take_lt by lia. by replace (S i `min` length rs - 1) with i by lia.
    + rewrite length_reverse, length_take. lia.
  - unfold proceeding.
    rewrite (iter_path_all limit σ false (drop i rs) r false).
    + by rewrite (drop_S _ _ _ Hi).
    + by apply follows_forward.
    + rewrite lookup_drop. by rewrite Nat.add_0_r.
    + rewrite length_drop. lia.
  - rewrite reverse_involutive. simpl.
    rewrite <- (drop_S _ _ _ Hi). apply take_drop.
Qed.


(** X13: [join] copies the steps it is given, expanded, and links the
    copies into one chain whose head it returns: the copies are new objects
    with the names and the attributes of the steps they copy, in the order
    given, walking from the head visits all of them, and no object that
    existed before is changed. *)
Theorem join_links_copies limit σ steps old :
  expanded limit σ steps true = Ok old → old ≠ [] →
  (∀ r, r ∈ old → is_Some (σ !! r)) →
  ∃ hd new σ',
    join limit σ steps = (Ok hd, σ') ∧
    new !! 0 = Some hd ∧ length new = length old ∧ linked σ' new ∧
    (∀ r, r ∈ new → σ !! r = None) ∧
    (∀ r, is_Some (σ !! r) → σ' !! r = σ !! r) ∧
    (∀ i r, new !! i = Some r →
            ∃ r0 o s, old !! i = Some r0 ∧ σ !! r0 = Some o ∧ σ' !! r = Some s ∧
                      name s = name o ∧ attrs s = attrs o) ∧
    iter (length new) σ' hd false true None = Ok new.
Proof.
  intros Hexp Hne Hall.
  destruct (chain_spec limit σ steps true old Hexp Hall)
    as (new & σ' & Hchain & Hlen & Hl & Hfresh & Hframe & Hobjs).
  unfold join. rewrite Hchain.
  destruct new as [| hd new]; [by destruct old |].
  exists hd, (hd :: new), σ'. split_and!; try done.
  by rewrite (iter_rest σ' (hd :: new) _ 0 hd Hl eq_refl).
Qed.

(** X14: [join] of no step at all, or of empty iterables only, raises
    [ValueError] and creates nothing. *)
Theorem join_of_nothing_raises limit σ steps :
  (∀ arg, arg ∈ steps → arg = Many []) →
  join limit σ steps = (Raise ValueError, σ).
Proof.
  intros Hall.
  assert (expanded limit σ steps true = Ok []) as Hexp.
  { induction steps as [| arg steps IH]; [done |].
    simpl. rewrite (Hall arg) by left. rewrite IH; [done |].
    intros arg' Harg'. apply Hall. by right. }
  unfold join, chain. by rewrite Hexp.
Qed.

(** X15: [a.append(b)], and so [a | b], gives the head of a new chain that
    holds copies of [a] and the steps after it, followed by copies of [b]
    and the steps after it: the steps before [a] and before [b] are left
    out. The chains of [a] and of [b] are as they were. *)
Theorem append_joins_the_rest_of_both_chains limit σ as_ bs i j a b :
  linked σ as_ → linked σ bs → as_ !! i = Some a → bs !! j = Some b →
  length as_ ≤ limit → length bs ≤ limit →
  ∃ hd new σ',
    append limit σ a b = (Ok hd, σ') ∧ or_ limit σ a b = (Ok hd, σ') ∧
    iter (length new) σ' hd false true None = Ok new ∧ linked σ' new ∧
    names σ' new = names σ (drop i as_ ++ drop j bs) ∧
    (∀ r, r ∈ new → (r ∉ as_) ∧ (r ∉ bs)) ∧
    linked σ' as_ ∧ linked σ' bs.
Proof.
  intros Hla Hlb Ha Hb Hlima Hlimb.
  assert (expanded limit σ [One a; One b] true = Ok (drop i as_ ++ drop j bs)) as Hexp.
  { simpl. rewrite (iter_rest σ as_ limit i a Hla Ha Hlima).
    rewrite (iter_rest σ bs limit j b Hlb Hb Hlimb). by rewrite app_nil_r. }
  destruct (join_links_copies limit σ [One a; One b] _ Hexp)
    as (hd & new & σ' & Hjoin & _ & Hlen & Hl & Hfresh & Hframe & Hobjs & Hiter).
  { rewrite (drop_S _ _ _ Ha). done. }
  { intros r [Hr | Hr]%elem_of_app.
    - apply (linked_allocated σ as_); [done |]. by eapply subseteq_drop.
    - apply (linked_allocated σ bs); [done |]. by eapply subseteq_drop. }
  exists hd, new, σ'. split_and!; try done.
  - by apply names_eq.
  - intros r Hr. pose proof (Hfresh _ Hr) as Hnone.
    split; intros Hin.
    + destruct (linked_allocated _ _ _ Hla Hin). congruence.
    + destruct (linked_allocated _ _ _ Hlb Hin). congruence.
  - by apply (linked_frame σ).
  - by apply (linked_frame σ).
Qed.

(** X16: [a.extend(steps)] takes the listed steps as they are, without the
    steps that follow them in their own chains: the new chain holds copies
    of [a] and the steps after it, followed by copies of the listed steps,
    linked to each other. *)
Theorem extend_takes_the_listed_steps_only limit σ as_ i a bs :
  linked σ as_ → as_ !! i = Some a → length as_ ≤ limit →
  (∀ r, r ∈ bs → is_Some (σ !! r)) →
  ∃ hd new σ',
    extend limit σ a bs = (Ok hd, σ') ∧
    iter (length new) σ' hd false true None = Ok new ∧ linked σ' new ∧
    names σ' new = names σ (drop i as_ ++ bs) ∧
    length new = length as_ - i + length bs ∧
    (∀ r, is_Some (σ !! r) → σ' !! r = σ !! r).
Proof.
  intros Hla Ha Hlima Hbs.
  assert (expanded limit σ [One a; Many bs] true = Ok (drop i as_ ++ bs)) as Hexp.
  { simpl. rewrite (iter_rest σ as_ limit i a Hla Ha Hlima). by rewrite app_nil_r. }
  destruct (join_links_copies limit σ [One a; Many bs] _ Hexp)
    as (hd & new & σ' & Hjoin & _ & Hlen & Hl & Hfresh & Hframe & Hobjs & Hiter).
  { rewrite (drop_S _ _ _ Ha). done. }
  { intros r [Hr | Hr]%elem_of_app; [| by apply Hbs].
    apply (linked_allocated σ as_); [done |]. by eapply subseteq_drop. }
  exists hd, new, σ'. split_and!; try done.
  - by apply names_eq.
  - by rewrite Hlen, length_app, length_drop.
Qed.

(** X17: [mutate] gives a new step that is a chain of its own, with no step
    before it and none after it, whatever the links of the step it comes
    from; it has the name and the attributes asked for, and those of the
    original where none is asked for. Every chain that existed is as it
    was. *)
Theorem mutate_detaches σ self s new_name new_attrs :
  σ !! self = Some s →
  ∃ r σ',
    mutate σ self new_name new_attrs = (Ok r, σ') ∧
    σ !! r = None ∧ linked σ' [r] ∧
    σ' !! r = Some (mkStep (default (name s) new_name) (default (attrs s) new_attrs)
                           None None) ∧
    (∀ limit, head (S limit) σ' r = Ok r ∧ tail (S limit) σ' r = Ok r ∧
              proceeding (S limit) σ' r = Ok [] ∧ preceeding (S limit) σ' r = Ok []) ∧
    (∀ rs, linked σ rs → linked σ' rs).
Proof.
  intros Hs. unfold mutate. rewrite Hs.
  set (r := fresh (dom σ)). set (o := mkStep _ _ None None).
  assert (σ !! r = None) as Hr by (apply not_elem_of_dom, is_fresh).
  exists r, (<[r := o]> σ). split_and!; [done | done | | | |].
  - split; [apply NoDup_singleton |]. intros [| i] r' Hi; [| done].
    injection Hi as <-. exists o. by rewrite lookup_insert_eq.
  - by rewrite lookup_insert_eq.
  - intros limit. unfold head, tail, proceeding, preceeding. cbn [iter].
    by rewrite lookup_insert_eq.
  - intros rs Hl. apply (linked_frame σ); [done |].
    intros r' [o' Ho']. apply lookup_insert_ne. congruence.
Qed.

End StepFacts.

(** ** The chain a - b - c and the lone step d *)

Lemma demo_chain : linked demo_heap [0; 1; 2].
Proof.
  split; [by apply NoDup_ListNoDup; repeat constructor; simpl; intuition lia |].
  intros [| [| [| i]]] r Hi; simplify_eq/=; eexists; by split_and!.
Qed.

Lemma demo_lone : linked demo_heap [3].
Proof.
  split; [apply NoDup_singleton |].
  intros [| i] r Hi; simplify_eq/=; eexists; by split_and!.
Qed.

Lemma iter_walks_the_chain_witness :
  linked demo_heap [0; 1; 2] ∧ [0; 1; 2] !! 1 = Some 1 ∧ length [0; 1; 2] ≤ 5 ∧
  iter 5 demo_heap 1 false true None = Ok [1; 2] ∧
  iter 5 demo_heap 1 true true None = Ok [1; 0].
Proof.
  assert (length [0; 1; 2] ≤ 5) as Hlim by (simpl; lia).
  destruct (iter_walks_the_chain demo_heap [0; 1; 2] 5 1 1 demo_chain eq_refl Hlim)
    as (Hfwd & Hbwd).
  split_and!; [exact demo_chain | reflexivity | exact Hlim | exact Hfwd | exact Hbwd].
Defined.

Lemma head_and_tail_of_the_chain_witness :
  linked demo_heap [0; 1; 2] ∧ [0; 1; 2] !! 1 = Some 1 ∧ length [0; 1; 2] ≤ 5 ∧
  head 5 demo_heap 1 = Ok 0 ∧ tail 5 demo_heap 1 = Ok 2 ∧
  ∃ before after,
    preceeding 5 demo_heap 1 = Ok before ∧ proceeding 5 demo_heap 1 = Ok after ∧
    reverse before ++ [1] ++ after = [0; 1; 2].
Proof.
  assert (length [0; 1; 2] ≤ 5) as Hlim by (simpl; lia).
  destruct (head_and_tail_of_the_chain demo_heap [0; 1; 2] 5 1 1 demo_chain eq_refl Hlim)
    as (first & final & before & after & Hfirst & Hfinal & Hh & Ht & Hp & Hq & Hrs).
  injection Hfirst as <-. injection Hfinal as <-.
  split_and!; [exact demo_chain | reflexivity | exact Hlim | exact Hh | exact Ht |].
  exists before, after. split_and!; [exact Hp | exact Hq | exact Hrs].
Defined.


Lemma join_links_copies_witness :
  expanded 5 demo_heap [One 1; Many [3; 3]] true = Ok [1; 2; 3; 3] ∧
  [1; 2; 3; 3] ≠ [] ∧
  (∀ r, r ∈ [1; 2; 3; 3] → is_Some (demo_heap !! r)) ∧
  ∃ hd new σ',
    join 5 demo_heap [One 1; Many [3; 3]] = (Ok hd, σ') ∧
    length new = length [1; 2; 3; 3] ∧ linked σ' new ∧
    iter (length new) σ' hd false true None = Ok new.
Proof.
  assert (expanded 5 demo_heap [One 1; Many [3; 3]] true = Ok [1; 2; 3; 3]) as Hexp
    by (vm_compute; reflexivity).
  assert ([1; 2; 3; 3] ≠ @nil nat) as Hne by discriminate.
  assert (∀ r, r ∈ [1; 2; 3; 3] → is_Some (demo_heap !! r)) as Hall.
  { apply Forall_forall. repeat constructor; eexists; vm_compute; reflexivity. }
  destruct (join_links_copies 5 demo_heap [One 1; Many [3; 3]] [1; 2; 3; 3]
              Hexp Hne Hall)
    as (hd & new & σ' & Hjoin & _ & Hlen & Hl & _ & _ & _ & Hiter).
  split_and!; [exact Hexp | exact Hne | exact Hall |].
  exists hd, new, σ'. split_and!; [exact Hjoin | exact Hlen | exact Hl | exact Hiter].
Defined.

Lemma join_of_nothing_raises_witness :
  (∀ arg, arg ∈ [Many []; Many []] → arg = Many []) ∧
  join 5 demo_heap [Many []; Many []] = (Raise ValueError, demo_heap).
Proof.
  assert (∀ arg, arg ∈ [Many []; Many []] → arg = Many []) as Hall.
  { apply Forall_forall. repeat constructor. }
  split; [exact Hall |].
  exact (join_of_nothing_raises 5 demo_heap [Many []; Many []] Hall).
Defined.

Lemma append_joins_the_rest_of_both_chains_witness :
  linked demo_heap [0; 1; 2] ∧ linked demo_heap [3] ∧
  [0; 1; 2] !! 1 = Some 1 ∧ [3] !! 0 = Some 3 ∧
  length [0; 1; 2] ≤ 5 ∧ length [3] ≤ 5 ∧
  ∃ hd new σ',
    append 5 demo_heap 1 3 = (Ok hd, σ') ∧
    iter (length new) σ' hd false true None = Ok new ∧
    names σ' new = [Some "b"; Some "c"; Some "d"] ∧
    linked σ' [0; 1; 2].
Proof.
  assert (length [0; 1; 2] ≤ 5) as Hlima by (simpl; lia).
  assert (length [3] ≤ 5) as Hlimb by (simpl; lia).
  destruct (append_joins_the_rest_of_both_chains 5 demo_heap [0; 1; 2] [3] 1 0 1 3
              demo_chain demo_lone eq_refl eq_refl Hlima Hlimb)
    as (hd & new & σ' & Happ & _ & Hiter & _ & Hnames & _ & Hla & _).
  split_and!; [exact demo_chain | exact demo_lone | reflexivity | reflexivity
              | exact Hlima | exact Hlimb |].
  exists hd, new, σ'. split_and!; [exact Happ | exact Hiter | | exact Hla].
  rewrite Hnames. vm_compute. reflexivity.
Defined.

Lemma extend_takes_the_listed_steps_only_witness :
  linked demo_heap [0; 1; 2] ∧ [0; 1; 2] !! 1 = Some 1 ∧ length [0; 1; 2] ≤ 5 ∧
  (∀ r, r ∈ [0] → is_Some (demo_heap !! r)) ∧
  ∃ hd new σ',
    extend 5 demo_heap 1 [0] = (Ok hd, σ') ∧
    iter (length new) σ' hd false true None = Ok new ∧
    names σ' new = [Some "b"; Some "c"; Some "a"].
Proof.
  assert (length [0; 1; 2] ≤ 5) as Hlim by (simpl; lia).
  assert (∀ r, r ∈ [0] → is_Some (demo_heap !! r)) as Hall.
  { apply Forall_forall. repeat constructor; eexists; vm_compute; reflexivity. }
  destruct (extend_takes_the_listed_steps_only 5 demo_heap [0; 1; 2] 1 1 [0]
              demo_chain eq_refl Hlim Hall)
    as (hd & new & σ' & Hext & Hiter & _ & Hnames & _).
  split_and!; [exact demo_chain | reflexivity | exact Hlim | exact Hall |].
  exists hd, new, σ'. split_and!; [exact Hext | exact Hiter |].
  rewrite Hnames. vm_compute. reflexivity.
Defined.

Lemma mutate_detaches_witness :
  demo_heap !! 1 = Some (mkStep "b" tt (Some 0) (Some 2)) ∧
  ∃ r σ',
    mutate demo_heap 1 (Some "z") None = (Ok r, σ') ∧
    σ' !! r = Some (mkStep "z" tt None None) ∧
    head 1 σ' r = Ok r ∧ tail 1 σ' r = Ok r ∧
    linked σ' [0; 1; 2].
Proof.
  assert (demo_heap !! 1 = Some (mkStep "b" tt (Some 0) (Some 2))) as Hs
    by (vm_compute; reflexivity).
  destruct (mutate_detaches demo_heap 1 (mkStep "b" tt (Some 0) (Some 2))
              (Some "z") None Hs)
    as (r & σ' & Hmut & _ & _ & Hr & Hwalk & Hkeep).
  destruct (Hwalk 0) as (Hh & Ht & _).
  split; [exact Hs |].
  exists r, σ'.
  split_and!; [exact Hmut | exact Hr | exact Hh | exact Ht | exact (Hkeep _ demo_chain)].
Defined.

(** * What the study is told *)

Import Optuna.

Section OptunaFacts.
Context `{Optimization}.
Implicit Types (vs : list (MetricValue Metric Value)) (k : Name).

Lemma foldl_lookup_other vs k (d : gmap Name (MetricValue Metric Value)) :
  (∀ x, x ∈ vs → metric_name (metric x) ≠ k) →
  foldl (λ d v, <[metric_name (metric v) := v]> d) d vs !! k = d !! k.
Proof.
  revert d. induction vs as [| v vs IH]; intros d Hall; [done |].
  simpl. rewrite IH by (intros x Hx; apply Hall; by right).
  apply lookup_insert_ne, Hall. left.
Qed.

Lemma lookup_missing vs k :
  (∀ x, x ∈ vs → metric_name (metric x) ≠ k) → _lookup vs !! k = None.
Proof. intros Hall. unfold _lookup. by rewrite foldl_lookup_other. Qed.

Lemma lookup_last vs pre v post :
  vs = pre ++ v :: post →
  (∀ x, x ∈ post → metric_name (metric x) ≠ metric_name (metric v)) →
  _lookup vs !! metric_name (metric v) = Some v.
Proof.
  intros -> Hpost. unfold _lookup. rewrite foldl_app. simpl.
  rewrite foldl_lookup_other by done. apply lookup_insert_eq.
Qed.

Lemma lookup_unique vs k v :
  NoDup (metric_name ∘ metric <$> vs) →
  _lookup vs !! k = Some v ↔ v ∈ vs ∧ metric_name (metric v) = k.
Proof.
  intros Hnd. split.
  - destruct (decide (k ∈ (metric_name ∘ metric <$> vs))) as [Hin | Hout].
    + apply list_elem_of_fmap in Hin as (w & -> & Hw).
      apply list_elem_of_split in Hw as (pre & post & ->). simpl.
      rewrite (lookup_last _ pre w post eq_refl).
      * intros [= <-]. split; [| done]. apply elem_of_app. right. left.
      * rewrite fmap_app, fmap_cons in Hnd.
        apply NoDup_app in Hnd as (_ & _ & Hnd). apply NoDup_cons in Hnd as [Hw _].
        intros x Hx Heq. apply Hw. simpl. rewrite <- Heq.
        by apply (list_elem_of_fmap_2 (metric_name ∘ metric)).
    + rewrite lookup_missing; [done |].
      intros x Hx <-. apply Hout. by apply (list_elem_of_fmap_2 (metric_name ∘ metric)).
  - intros [Hv <-]. apply list_elem_of_split in Hv as (pre & post & ->).
    apply (lookup_last _ pre v post eq_refl).
    rewrite fmap_app, fmap_cons in Hnd.
    apply NoDup_app in Hnd as (_ & _ & Hnd). apply NoDup_cons in Hnd as [Hw _].
    intros x Hx Heq. apply Hw. simpl. rewrite <- Heq.
    by apply (list_elem_of_fmap_2 (metric_name ∘ metric)).
Qed.

(** X18: a successful trial of an optimizer that has not exactly one metric
    is told as complete with one value per metric of the optimizer, in the
    order of the optimizer's metrics and whatever the order of the report:
    the value reported under the name of the metric, the last one when the
    report names the metric more than once, and the worst value of the
    metric when the report does not name it. *)
Theorem tell_gives_a_value_per_metric self report trial :
  info report = Some trial → status report = SUCCESS →
  SUCCESS ≠ CRASHED → SUCCESS ≠ UNKNOWN → SUCCESS ≠ FAIL →
  length (metrics self) ≠ 1 →
  ∃ values,
    tell self report =
      Ok (mkOptimizer (metrics self)
            (study self ++
               [mkStudyTell trial TrialState_COMPLETE (Some (Several values))])) ∧
    length values = length (metrics self) ∧
    ∀ i m, metrics self !! i = Some m →
      ((∀ x, x ∈ metric_values report → metric_name (metric x) ≠ metric_name m) →
       values !! i = Some (value (worst m))) ∧
      (∀ pre v post,
         metric_values report = pre ++ v :: post →
         metric_name (metric v) = metric_name m →
         (∀ x, x ∈ post → metric_name (metric x) ≠ metric_name m) →
         values !! i = Some (value v)).
Proof.
  intros Hinfo Hst H1 H2 H3 Hlen.
  set (values := (λ m, value (default (worst m)
                   (_lookup (metric_values report) !! metric_name m))) <$> metrics self).
  exists values. split_and!.
  - unfold tell. rewrite Hinfo, Hst.
    rewrite decide_False by (intros [? | [? | ?]]; done).
    rewrite decide_True by done. subst values. unfold study_tell.
    destruct (metrics self) as [| m1 [| m2 ms]]; done.
  - apply length_fmap.
  - intros i m Hi. unfold values. rewrite list_lookup_fmap, Hi. simpl. split.
    + intros Hnone. by rewrite lookup_missing.
    + intros pre v post Hvs Hname Hpost. rewrite <- Hname.
      rewrite (lookup_last _ pre v post Hvs); [done |]. by rewrite Hname.
Qed.

(** X19: for an optimizer that has not exactly one metric, the order in
    which a report lists its values does not matter, as long as it names no
    metric twice. *)
Theorem tell_ignores_the_order_of_the_report self i st vs vs' :
  length (metrics self) ≠ 1 →
  NoDup (metric_name ∘ metric <$> vs) → vs ≡ₚ vs' →
  tell self (mkReport i st vs) = tell self (mkReport i st vs').
Proof.
  intros Hlen Hnd Hperm.
  assert (_lookup vs = _lookup vs') as Heq.
  { apply map_eq. intros k. apply option_eq. intros v.
    rewrite !lookup_unique by (by rewrite <- ?Hperm).
    by rewrite Hperm. }
  unfold tell, study_tell. simpl. rewrite Heq.
  destruct i; [| done]. repeat case_decide; try done.
  destruct (metrics self) as [| m1 [| m2 ms]]; done.
Qed.

(** X20: a successful trial of an optimizer with one metric is told as
    complete with a single number: the value of the first reported value
    whose metric equals the metric of the optimizer, and the worst value of
    that metric when no reported value has an equal metric. *)
Theorem tell_takes_the_first_equal_metric self report trial m :
  info report = Some trial → status report = SUCCESS →
  SUCCESS ≠ CRASHED → SUCCESS ≠ UNKNOWN → SUCCESS ≠ FAIL →
  metrics self = [m] →
  (∀ pre v post,
     metric_values report = pre ++ v :: post →
     (∀ x, x ∈ pre → metric_eq (metric x) m = false) →
     metric_eq (metric v) m = true →
     tell self report =
       Ok (mkOptimizer [m]
             (study self ++
                [mkStudyTell trial TrialState_COMPLETE (Some (Single (value v)))]))) ∧
  ((∀ x, x ∈ metric_values report → metric_eq (metric x) m = false) →
   tell self report =
     Ok (mkOptimizer [m]
           (study self ++
              [mkStudyTell trial TrialState_COMPLETE
                 (Some (Single (value (worst m))))]))).
Proof.
  intros Hinfo Hst H1 H2 H3 Hm.
  assert (∀ l : list (MetricValue Metric Value),
            (∀ x, x ∈ l → metric_eq (metric x) m = false) →
            filter (λ x, metric_eq (metric x) m = true) l = []) as Hnone.
  { intros l Hl. induction l as [| x l IH]; [done |].
    rewrite filter_cons_False by (rewrite Hl; [done | left]).
    apply IH. intros y Hy. apply Hl. by right. }
  assert (tell self report =
            Ok (study_tell trial TrialState_COMPLETE
                  (Some (Single (value (first_true (metric_values report)
                     (λ x, metric_eq (metric x) m) (worst m))))) self)) as Htell.
  { unfold tell. rewrite Hinfo, Hst, Hm.
    rewrite decide_False by (intros [? | [? | ?]]; done).
    by rewrite decide_True by done. }
  rewrite Htell. unfold study_tell, first_true. rewrite Hm. split.
  - intros pre v post -> Hpre Hv.
    by rewrite filter_app, (Hnone _ Hpre), filter_cons_True by done.
  - intros Hall. by rewrite (Hnone _ Hall).
Qed.

End OptunaFacts.

Lemma tell_gives_a_value_per_metric_witness :
  info (mkReport (Some 7) SUCCESS [mkValue cost 3%Z; mkValue accuracy 9%Z]) = Some 7 ∧
  status (mkReport (Some 7) SUCCESS [mkValue cost 3%Z; mkValue accuracy 9%Z]) = SUCCESS ∧
  SUCCESS ≠ CRASHED ∧ SUCCESS ≠ UNKNOWN ∧ SUCCESS ≠ FAIL ∧
  length (metrics both) ≠ 1 ∧
  ∃ values,
    tell both (mkReport (Some 7) SUCCESS [mkValue cost 3%Z; mkValue accuracy 9%Z]) =
      Ok (mkOptimizer (metrics both)
            (study both ++
               [mkStudyTell 7 TrialState_COMPLETE (Some (Several values))])) ∧
    length values = length (metrics both) ∧
    values !! 0 = Some 9%Z.
Proof.
  assert (SUCCESS ≠ CRASHED) as H1 by discriminate.
  assert (SUCCESS ≠ UNKNOWN) as H2 by discriminate.
  assert (SUCCESS ≠ FAIL) as H3 by discriminate.
  assert (length (metrics both) ≠ 1) as Hlen by discriminate.
  destruct (tell_gives_a_value_per_metric (H:=demo_optimization) both
              (mkReport (H:=demo_optimization) (Some 7) SUCCESS
                 [mkValue cost 3%Z; mkValue accuracy 9%Z])
              7 eq_refl eq_refl H1 H2 H3 Hlen) as (values & Htell & Hl & Hvalues).
  split_and!; [reflexivity | reflexivity | exact H1 | exact H2 | exact H3 | exact Hlen |].
  exists values. split_and!; [exact Htell | exact Hl |].
  destruct (Hvalues 0 accuracy eq_refl) as [_ Hlast].
  apply (Hlast [mkValue cost 3%Z] (mkValue accuracy 9%Z) []); [reflexivity | reflexivity |].
  intros x Hx. by apply elem_of_nil in Hx.
Defined.

Lemma tell_ignores_the_order_of_the_report_witness :
  length (metrics both) ≠ 1 ∧
  NoDup (metric_name ∘ metric <$> [mkValue cost 3%Z; mkValue accuracy 9%Z]) ∧
  [mkValue cost 3%Z; mkValue accuracy 9%Z] ≡ₚ [mkValue accuracy 9%Z; mkValue cost 3%Z] ∧
  tell both (mkReport (Some 7) SUCCESS [mkValue cost 3%Z; mkValue accuracy 9%Z]) =
    tell both (mkReport (Some 7) SUCCESS [mkValue accuracy 9%Z; mkValue cost 3%Z]).
Proof.
  assert (length (metrics both) ≠ 1) as Hlen by discriminate.
  assert (NoDup (metric_name ∘ metric <$>
                   [mkValue (Metric:=Metric) cost 3%Z; mkValue accuracy 9%Z])) as Hnd.
  { apply NoDup_cons. split; [| apply NoDup_singleton].
    intros Hin%list_elem_of_singleton. discriminate Hin. }
  assert ([mkValue (Metric:=Metric) cost 3%Z; mkValue accuracy 9%Z] ≡ₚ
            [mkValue accuracy 9%Z; mkValue cost 3%Z]) as Hperm by apply perm_swap.
  split_and!; [exact Hlen | exact Hnd | exact Hperm |].
  exact (tell_ignores_the_order_of_the_report (H:=demo_optimization) both (Some 7)
           SUCCESS _ _ Hlen Hnd Hperm).
Defined.

Lemma tell_takes_the_first_equal_metric_witness :
  info (mkReport (Some 7) SUCCESS
          [mkValue ("accuracy", true) 1%Z; mkValue accuracy 9%Z; mkValue accuracy 4%Z])
    = Some 7 ∧
  status (mkReport (Some 7) SUCCESS
            [mkValue ("accuracy", true) 1%Z; mkValue accuracy 9%Z; mkValue accuracy 4%Z])
    = SUCCESS ∧
  SUCCESS ≠ CRASHED ∧ SUCCESS ≠ UNKNOWN ∧ SUCCESS ≠ FAIL ∧
  metrics alone = [accuracy] ∧
  tell alone
    (mkReport (Some 7) SUCCESS
       [mkValue ("accuracy", true) 1%Z; mkValue accuracy 9%Z; mkValue accuracy 4%Z]) =
    Ok (mkOptimizer [accuracy]
          (study alone ++
             [mkStudyTell 7 TrialState_COMPLETE
                (Some (Single (value (mkValue accuracy 9%Z))))])).
Proof.
  assert (SUCCESS ≠ CRASHED) as H1 by discriminate.
  assert (SUCCESS ≠ UNKNOWN) as H2 by discriminate.
  assert (SUCCESS ≠ FAIL) as H3 by discriminate.
  destruct (tell_takes_the_first_equal_metric (H:=demo_optimization) alone
              (mkReport (H:=demo_optimization) (Some 7) SUCCESS
                 [mkValue ("accuracy", true) 1%Z; mkValue accuracy 9%Z;
                  mkValue accuracy 4%Z])
              7 accuracy eq_refl eq_refl H1 H2 H3 eq_refl) as [Hfirst _].
  split_and!; [reflexivity | reflexivity | exact H1 | exact H2 | exact H3 | reflexivity |].
  apply (Hfirst [mkValue ("accuracy", true) 1%Z] (mkValue accuracy 9%Z)
                [mkValue accuracy 4%Z]); [reflexivity | | reflexivity].
  intros x Hx%list_elem_of_singleton. by rewrite Hx.
Defined.
